(** * crawlforge-mcp: source-rewrite scripts and the URL safety classifier

  A shallow embedding of the two one-off rewrite scripts of the repository
  ([fix-inline-schemas.py], [fix-tools.py]) and of the URL safety
  classifier described by the specification, with the properties stated
  about them.

  Python text ([str]) is a sequence of Unicode code points; it is modelled
  as [list N].  The file system is a finite map from paths to the text a
  text-mode [open] sees.  Scripts run in a small state-and-exception monad
  over a [world] that records files, standard output and the file
  operations performed. *)

From Stdlib Require Import ZArith NArith List Ascii String Bool Lia.
From stdpp Require Import base option list gmap.

Set Default Proof Using "Type".
Open Scope N_scope.
Open Scope list_scope.

(* ===================================================================== *)
(** * Part I: definitions                                                 *)
(* ===================================================================== *)

(** ** Python strings *)

Module PyStr.

(** Characters are code points, texts are lists of them. *)
Abbreviation char := N (only parsing).
Abbreviation str := (list N) (only parsing).

(** A Python string literal made of ASCII characters. *)
Definition py (s : string) : str :=
  List.map N_of_ascii (list_ascii_of_string s).

(** The double quote, written by code point. *)
Definition dquote : char := 34.
Definition newline : char := 10.

(** [s.startswith(p)] *)
Fixpoint starts_with (p s : str) : bool :=
  match p, s with
  | [], _ => true
  | _ :: _, [] => false
  | a :: p', b :: s' => (a =? b) && starts_with p' s'
  end.

(** The left-to-right scan of [str.replace] for a non-empty [old]:
    where [old] starts, emit [new] and jump over the occurrence; elsewhere
    copy one character.  [fuel] bounds the number of scan steps. *)
Fixpoint replace_from (fuel : nat) (old new s : str) : str :=
  match fuel with
  | O => s
  | S fuel' =>
      match s with
      | [] => []
      | c :: s' =>
          if starts_with old s
          then new ++ replace_from fuel' old new (drop (length old) s)
          else c :: replace_from fuel' old new s'
      end
  end.

(** [s.replace(old, new)].  With an empty [old] Python puts [new] before
    every character and at the end. *)
Definition replace (old new s : str) : str :=
  match old with
  | [] => new ++ flat_map (fun c => c :: new) s
  | _ :: _ => replace_from (length s) old new s
  end.

(** [sep.join(parts)] *)
Fixpoint join (sep : str) (parts : list str) : str :=
  match parts with
  | [] => []
  | [p] => p
  | p :: rest => p ++ sep ++ join sep rest
  end.

(** [old in s]: some position of [s] starts with [old]. *)
Fixpoint contains (old s : str) : bool :=
  starts_with old s ||
  match s with
  | [] => false
  | _ :: s' => contains old s'
  end.

(** Substring occurrence, stated on the text. *)
Definition occurs (old s : str) : Prop :=
  exists a b, s = a ++ old ++ b.

(** The non-empty suffixes of a text. *)
Fixpoint tails (s : str) : list str :=
  match s with
  | [] => []
  | _ :: s' => s :: tails s'
  end.

(** One of the two texts starts with the other. *)
Definition comparable (a b : str) : bool :=
  starts_with a b || starts_with b a.

(** A checkable condition under which putting [new] into a text cannot
    complete an occurrence of [q]: no non-empty suffix of [q] is comparable
    with [new], and no non-empty suffix of [new] is comparable with [q]. *)
Definition clash_free (q new : str) : bool :=
  forallb (fun q' => negb (comparable q' new)) (tails q)
  && forallb (fun n' => negb (comparable n' q)) (tails new).

(** [a == b] *)
Definition text_eqb (a b : str) : bool :=
  (length a =? length b)%nat && starts_with a b.

(** No proper non-empty suffix of [old] is comparable with [old]: two
    occurrences of [old] cannot overlap. *)
Definition border_free (old : str) : bool :=
  forallb (fun y => negb (comparable y old)) (tails (List.tl old)).

(** A text laid out as gaps and blocks: each gap followed by its block,
    and a last stretch of text. *)
Definition render (blocks : list (str * str)) (last : str) : str :=
  fold_right (fun '(gap, block) rest => gap ++ block ++ rest) last blocks.

End PyStr.
Export PyStr.

(** ** Files, standard output and script outcomes *)

Module IO.

Inductive exn :=
| FileNotFoundError (path : str).

Inductive fileop :=
| OpenRead (path : str)
| OpenWrite (path : str).

Record world := World {
  files : gmap str str;
  stdout : list str;
  fileops : list fileop
}.

Inductive outcome (A : Type) :=
| Done (a : A)
| Exited (code : Z)
| Raised (e : exn).
Arguments Done {A} a.
Arguments Exited {A} code.
Arguments Raised {A} e.

Definition io (A : Type) := world -> outcome A * world.

Definition ret {A} (a : A) : io A := fun w => (Done a, w).

Definition bind {A B} (m : io A) (k : A -> io B) : io B :=
  fun w =>
    match m w with
    | (Done a, w') => k a w'
    | (Exited c, w') => (Exited c, w')
    | (Raised e, w') => (Raised e, w')
    end.

(** [print(line)] *)
Definition print (line : str) : io unit :=
  fun w => (Done tt, World (files w) (stdout w ++ [line]) (fileops w)).

(** [sys.exit(code)] *)
Definition sys_exit {A} (code : Z) : io A :=
  fun w => (Exited code, w).

(** [with open(path, 'r') as f: return f.read()].  The map of files holds,
    for a path as it is spelled, the text a text-mode read of it returns
    (decoded, newlines already translated); a path that is no key stands
    for a missing file.  Other failures of [open] (a directory, bytes that
    do not decode) and other spellings of the same file are outside the
    model. *)
Definition read_file (path : str) : io str :=
  fun w =>
    let w' := World (files w) (stdout w) (fileops w ++ [OpenRead path]) in
    match files w !! path with
    | Some content => (Done content, w')
    | None => (Raised (FileNotFoundError path), w')
    end.

(** [with open(path, 'w') as f: f.write(content)].  After it, a text-mode
    read of the same spelling of the path returns [content]; what other
    spellings of the same file (relative, absolute, links) read is outside
    the model. *)
Definition write_file (path content : str) : io unit :=
  fun w =>
    (Done tt,
     World (<[path := content]> (files w)) (stdout w)
           (fileops w ++ [OpenWrite path])).

(** Printing a list of lines, in order. *)
Definition print_all (lines : list str) (w : world) : world :=
  World (files w) (stdout w ++ lines) (fileops w).

End IO.
Export IO.

(** The monad operations, for stdpp's [x ← m; k] and [m;; k] notations. *)
#[global] Instance io_ret : MRet io := @IO.ret.
#[global] Instance io_bind : MBind io := fun A B k m => IO.bind m k.

(** ** fix-inline-schemas.py *)

Module FixInlineSchemas.

(** The dictionary of schema names and inline definitions, in insertion
    order (the order in which Python iterates [items()]). *)
Definition schema_replacements : list (str * str) :=
  [
    (py "ExtractMetadataSchema",
     py "{
    url: z.string().url()
  }");
    (py "ScrapeStructuredSchema",
     py "{
    url: z.string().url(),
    selectors: z.record(z.string())
  }");
    (py "SearchWebSchema",
     py "{
      query: z.string(),
      limit: z.number().min(1).max(100).optional(),
      offset: z.number().min(0).optional(),
      lang: z.string().optional(),
      safe_search: z.boolean().optional(),
      time_range: z.enum(['day', 'week', 'month', 'year', 'all']).optional(),
      site: z.string().optional(),
      file_type: z.string().optional()
    }");
    (py "CrawlDeepSchema",
     py "{
    url: z.string().url(),
    max_depth: z.number().min(1).max(5).optional(),
    max_pages: z.number().min(1).max(1000).optional(),
    include_patterns: z.array(z.string()).optional(),
    exclude_patterns: z.array(z.string()).optional(),
    follow_external: z.boolean().optional(),
    respect_robots: z.boolean().optional(),
    extract_content: z.boolean().optional(),
    concurrency: z.number().min(1).max(20).optional()
  }");
    (py "MapSiteSchema",
     py "{
    url: z.string().url(),
    include_sitemap: z.boolean().optional(),
    max_urls: z.number().min(1).max(10000).optional(),
    group_by_path: z.boolean().optional(),
    include_metadata: z.boolean().optional()
  }");
    (py "ExtractContentSchema",
     py "{
    url: z.string().url(),
    options: z.object({}).optional()
  }");
    (py "ProcessDocumentSchema",
     py "{
    source: z.string(),
    sourceType: z.enum(['url', 'pdf_url', 'file', 'pdf_file']).optional(),
    options: z.object({}).optional()
  }");
    (py "SummarizeContentSchema",
     py "{
    text: z.string(),
    options: z.object({}).optional()
  }");
    (py "AnalyzeContentSchema",
     py "{
    text: z.string(),
    options: z.object({}).optional()
  }")
  ].

(** [f'inputSchema: {schema_name}'] and [f'inputSchema: {inline_def}'] *)
Definition old_pattern (schema_name : str) : str :=
  py "inputSchema: " ++ schema_name.
Definition new_pattern (inline_def : str) : str :=
  py "inputSchema: " ++ inline_def.

(** The (old, new) pairs the loop goes through. *)
Definition rewrites : list (str * str) :=
  List.map (fun '(schema_name, inline_def) =>
              (old_pattern schema_name, new_pattern inline_def))
           schema_replacements.

(** The [for] loop: [content = content.replace(old_pattern, new_pattern)]
    for each item in turn. *)
Definition replace_all (rs : list (str * str)) (content : str) : str :=
  fold_left (fun content '(old, new) => replace old new content) rs content.

Definition fix_content (content : str) : str :=
  replace_all rewrites content.

(** Every pattern of the list is non-empty and clash-free with every
    replacement text of the list. *)
Definition all_clash_free (rs : list (str * str)) : bool :=
  forallb (fun '(q, _) =>
             match q with [] => false | _ :: _ => true end
             && forallb (fun '(_, new) => clash_free q new) rs) rs.

(** One pass in the words of its description: [s'] is [s] with every
    occurrence of [old] replaced by [new] and all other text unchanged.
    The text is cut at the occurrences into segments free of [old]; [s] is
    the segments joined by [old], [s'] the same segments joined by [new]. *)
Definition replaced_everywhere (old new s s' : str) : Prop :=
  exists segs : list str,
    segs <> []
    /\ s = join old segs
    /\ s' = join new segs
    /\ Forall (fun g => ~ occurs old g) segs.

(** The passes of a list of (old, new) pairs, one after the other. *)
Inductive replaced_in_turn : list (str * str) -> str -> str -> Prop :=
| in_turn_nil s : replaced_in_turn [] s s
| in_turn_cons old new rs s s' s'' :
    replaced_everywhere old new s s' ->
    replaced_in_turn rs s' s'' ->
    replaced_in_turn ((old, new) :: rs) s s''.

Definition server_js : str := py "server.js".

Definition confirmation : str :=
  py "Fixed all schema references to use inline definitions".

(** The script. *)
Definition main : io unit :=
  content ← read_file server_js;
  write_file server_js (fix_content content);;
  print confirmation.

(** None of the nine schema references occurs in the text. *)
Definition reference_free (s : str) : bool :=
  forallb (fun '(schema_name, _) => negb (contains (old_pattern schema_name) s))
          schema_replacements.

(** A text with schema references: each gap is followed by the reference
    to the schema of its entry, written with [pick] (the schema name before
    the script runs, the inline definition after it). *)
Definition with_references (pick : str * str -> str)
    (refs : list (str * (str * str))) (last : str) : str :=
  render (List.map (fun '(gap, entry) => (gap, pick entry)) refs) last.

(** A block that a pass for [old] handles as a whole: it is [old] itself,
    which cannot overlap itself, or it is clash-free with [old]. *)
Definition ok_block (old m : str) : bool :=
  (text_eqb m old && border_free old) || clash_free old m.

(** What the passes make of a block: the first pattern equal to it turns
    it into its replacement text, and so on down the list. *)
Definition subst_block (rs : list (str * str)) (m : str) : str :=
  fold_left (fun m '(old, new) => if text_eqb m old then new else m) rs m.

(** The patterns and replacement texts of a list of pairs. *)
Definition block_texts (rs : list (str * str)) : list str :=
  List.map fst rs ++ List.map snd rs.

(** Every pattern is non-empty and handles every block text as a whole,
    and the passes turn every pattern into its own replacement text. *)
Definition well_separated (rs : list (str * str)) : bool :=
  forallb (fun '(old, new) =>
             match old with [] => false | _ :: _ => true end
             && forallb (ok_block old) (block_texts rs)
             && text_eqb (subst_block rs old) new) rs.

End FixInlineSchemas.


(** ** Regular expressions, as far as [tool_pattern] uses them *)

Module Regex.

(** A pattern is a sequence of nodes: literal text, or a greedy repetition
    of a character class ([cls*] when [min = 0], [cls+] when [min = 1]),
    which is a capturing group when [capture] is set. *)
Inductive node :=
| Lit (text : str)
| Rep (capture : bool) (cls : char -> bool) (min : nat).

(** [\s] on Python 3 text: the code points [str.isspace] accepts. *)
Definition is_space (c : char) : bool :=
  ((9 <=? c) && (c <=? 13)) || ((28 <=? c) && (c <=? 32))
  || (c =? 133) || (c =? 160) || (c =? 5760)
  || ((8192 <=? c) && (c <=? 8202))
  || (c =? 8232) || (c =? 8233) || (c =? 8239) || (c =? 8287)
  || (c =? 12288).

(** [[^x]]: any character but [x], newlines included. *)
Definition not_char (x : char) (c : char) : bool := negb (c =? x).

(** [s] without its prefix [p], when it has it. *)
Fixpoint strip_prefix (p s : str) : option str :=
  match p, s with
  | [], _ => Some s
  | _ :: _, [] => None
  | a :: p', b :: s' => if a =? b then strip_prefix p' s' else None
  end.

(** A successful match: the captured groups, in order, and the text left
    after the match. *)
Definition result := option (list str * str).

(** Greedy repetition with backtracking: take characters of the class as
    long as possible, then try the rest of the pattern [k]; when that fails
    give back one character at a time, never going below [min].  The answer
    is the text taken together with what the rest of the pattern found. *)
Fixpoint greedy (cls : char -> bool) (min : nat) (k : str -> result)
    (taken : str) (s : str) : option (str * (list str * str)) :=
  let stop :=
    if (min <=? length taken)%nat
    then option_map (pair taken) (k s)
    else None in
  match s with
  | [] => stop
  | c :: s' =>
      if cls c then
        match greedy cls min k (taken ++ [c]) s' with
        | Some r => Some r
        | None => stop
        end
      else stop
  end.

(** Matching a pattern at the start of [s]. *)
Fixpoint match_here (pat : list node) (s : str) : result :=
  match pat with
  | [] => Some ([], s)
  | Lit text :: pat' =>
      match strip_prefix text s with
      | Some s' => match_here pat' s'
      | None => None
      end
  | Rep capture cls min :: pat' =>
      match greedy cls min (match_here pat') [] s with
      | Some (taken, (groups, rest)) =>
          Some (if capture then taken :: groups else groups, rest)
      | None => None
      end
  end.

(** What it means for a text to match a pattern, with the groups it
    captures: the declarative reading of the pattern. *)
Inductive matches : list node -> str -> list str -> Prop :=
| matches_nil : matches [] [] []
| matches_lit text pat m groups :
    matches pat m groups ->
    matches (Lit text :: pat) (text ++ m) groups
| matches_rep capture cls min pat a m groups :
    forallb cls a = true ->
    (min <= length a)%nat ->
    matches pat m groups ->
    matches (Rep capture cls min :: pat) (a ++ m)
            (if capture then a :: groups else groups).

(** The text does not go on with a character of the class. *)
Definition stops (cls : char -> bool) (x : str) : Prop :=
  match x with
  | [] => True
  | c :: _ => cls c = false
  end.

(** [match.group(i)] for [i >= 1]. *)
Definition group (groups : list str) (i : nat) : str :=
  nth (i - 1) groups [].

(** [re.sub(pat, repl, s)] with a function [repl] that may print: scan from
    the left; where the pattern matches, call [repl] on the match, emit what
    it returns and go on after the match; elsewhere copy one character.
    [tool_pattern] starts with a literal, so it has no empty match and
    Python's rules for empty matches are not needed.  [fuel] bounds the
    number of scan steps. *)
Fixpoint sub_from (fuel : nat) (pat : list node)
    (repl : list str -> io str) (s : str) : io str :=
  match fuel with
  | O => mret s
  | S fuel' =>
      match match_here pat s with
      | Some (groups, rest) =>
          r ← repl groups;
          out ← sub_from fuel' pat repl rest;
          mret (r ++ out)
      | None =>
          match s with
          | [] => mret []
          | c :: s' =>
              out ← sub_from fuel' pat repl s';
              mret (c :: out)
          end
      end
  end.

Definition sub (pat : list node) (repl : list str -> io str) (s : str)
    : io str :=
  sub_from (length s) pat repl s.

End Regex.
Export Regex.

(** ** fix-tools.py *)

Module FixTools.

(** [tool_pattern], node by node: the literal [server.tool(], optional
    white space, a quoted non-empty tool name (group 1), a comma, optional
    white space, a quoted non-empty description (group 2), a comma, optional
    white space, a braced non-empty schema without closing brace (group 3),
    a comma, optional white space, [async], optional white space, a
    parenthesised parameter list without closing parenthesis (group 4),
    optional white space, [=>], optional white space and an opening brace.
    The flags MULTILINE and DOTALL change the meaning of the anchors and of
    the dot, none of which occurs in the pattern. *)
Definition tool_pattern : list node :=
  [ Lit (py "server.tool(");
    Rep false is_space 0;
    Lit [dquote];
    Rep true (not_char dquote) 1;
    Lit (dquote :: py ",");
    Rep false is_space 0;
    Lit [dquote];
    Rep true (not_char dquote) 1;
    Lit (dquote :: py ",");
    Rep false is_space 0;
    Lit (py "{");
    Rep true (not_char 125) 1;
    Lit (py "},");
    Rep false is_space 0;
    Lit (py "async");
    Rep false is_space 0;
    Lit (py "(");
    Rep true (not_char 41) 0;
    Lit (py ")");
    Rep false is_space 0;
    Lit (py "=>");
    Rep false is_space 0;
    Lit (py "{") ].

Definition convert_schema_format (old_schema : str) : str :=
  py "    // TODO: Define proper Zod schemas here".

Definition convert_params_format (params schema : str) : str :=
  py "/* TODO: Add destructured parameters */".

(** The f-string [replace_tool] returns. *)
Definition register_call (tool_name description new_schema new_params : str)
    : str :=
  py "server.registerTool(" ++ [dquote] ++ tool_name ++ [dquote]
  ++ py ", {" ++ [newline]
  ++ py "  description: " ++ [dquote] ++ description ++ [dquote]
  ++ py "," ++ [newline]
  ++ py "  inputSchema: {" ++ [newline]
  ++ new_schema ++ [newline]
  ++ py "  }" ++ [newline]
  ++ py "}, async (" ++ new_params ++ py ") => {".

Definition replace_tool (groups : list str) : io str :=
  let tool_name := group groups 1 in
  let description := group groups 2 in
  let old_schema := group groups 3 in
  let params := group groups 4 in
  print (py "Converting tool: " ++ tool_name);;
  let new_schema := convert_schema_format old_schema in
  let new_params := convert_params_format params old_schema in
  mret (register_call tool_name description new_schema new_params).

Definition convert_tool_to_register_tool (content : str) : io str :=
  sub tool_pattern replace_tool content.

(** The text of a [server.tool] call as [tool_pattern] describes it: the
    four captured parts and the seven stretches of white space. *)
Record tool_call := {
  call_name : str;
  call_description : str;
  call_schema : str;
  call_params : str;
  sp1 : str; sp2 : str; sp3 : str; sp4 : str; sp5 : str; sp6 : str;
  sp7 : str
}.

Definition call_text (t : tool_call) : str :=
  py "server.tool(" ++ sp1 t
  ++ [dquote] ++ call_name t ++ (dquote :: py ",") ++ sp2 t
  ++ [dquote] ++ call_description t ++ (dquote :: py ",") ++ sp3 t
  ++ py "{" ++ call_schema t ++ py "}," ++ sp4 t
  ++ py "async" ++ sp5 t
  ++ py "(" ++ call_params t ++ py ")" ++ sp6 t
  ++ py "=>" ++ sp7 t ++ py "{".

Definition nonempty (s : str) : bool :=
  match s with [] => false | _ :: _ => true end.

Definition well_formed_call (t : tool_call) : bool :=
  nonempty (call_name t) && forallb (not_char dquote) (call_name t)
  && nonempty (call_description t)
  && forallb (not_char dquote) (call_description t)
  && nonempty (call_schema t) && forallb (not_char 125) (call_schema t)
  && forallb (not_char 41) (call_params t)
  && forallb is_space (sp1 t) && forallb is_space (sp2 t)
  && forallb is_space (sp3 t) && forallb is_space (sp4 t)
  && forallb is_space (sp5 t) && forallb is_space (sp6 t)
  && forallb is_space (sp7 t).

(** A text that begins with a [server.tool] call. *)
Definition starts_with_call (s : str) : Prop :=
  exists t rest, well_formed_call t = true /\ s = call_text t ++ rest.

(** Some part of the text is a call. *)
Definition has_call (s : str) : Prop :=
  exists a, exists t, exists b,
    well_formed_call t = true /\ s = a ++ call_text t ++ b.

Definition todo_schema : str :=
  py "    // TODO: Define proper Zod schemas here".
Definition todo_params : str :=
  py "/* TODO: Add destructured parameters */".

(** The conversion in the words of its description: going through the
    text from the left, each [server.tool] call becomes the
    [server.registerTool] call with the same name and description and the
    two fixed texts, and is reported on standard output; every other
    character is kept. *)
Inductive converts : str -> str -> list str -> Prop :=
| converts_end : converts [] [] []
| converts_copy c s out log :
    ~ starts_with_call (c :: s) ->
    converts s out log ->
    converts (c :: s) (c :: out) log
| converts_call t rest out log :
    well_formed_call t = true ->
    converts rest out log ->
    converts (call_text t ++ rest)
             (register_call (call_name t) (call_description t)
                            todo_schema todo_params ++ out)
             ((py "Converting tool: " ++ call_name t) :: log).

(** The literal every call starts with. *)
Definition marker : str := py "server.tool(".

(** A text with calls: each gap is followed by its call, written with
    [pick] (the [server.tool] call before the conversion, the
    [server.registerTool] call after it). *)
Definition with_calls (pick : tool_call -> str)
    (calls : list (str * tool_call)) (last : str) : str :=
  render (List.map (fun '(gap, t) => (gap, pick t)) calls) last.

(** What a call becomes, and the line reported for it. *)
Definition converted_call (t : tool_call) : str :=
  register_call (call_name t) (call_description t) todo_schema todo_params.

Definition report_line (t : tool_call) : str :=
  py "Converting tool: " ++ call_name t.

Definition usage : str := py "Usage: python3 fix-tools.py <server.js>".
Definition completed : str := py "Tool conversion completed!".

(** The [__main__] block, on [sys.argv]. *)
Definition main (argv : list str) : io unit :=
  if negb (length argv =? 2)%nat then
    print usage;;
    sys_exit 1
  else
    let filepath := nth 1 argv [] in
    content ← read_file filepath;
    new_content ← convert_tool_to_register_tool content;
    write_file filepath new_content;;
    print completed.

End FixTools.


(** ** The URL safety classifier

    The source of the classifier (the Address-Space Matcher and the URL
    Classifier) is not among the files at hand; every definition of this
    module is modelled from the specification, sections 3, 4.1 and 4.2. *)

Module UrlSafety.

Local Open Scope Z_scope.

(** *** Addresses and ranges *)

Inductive family := IPv4 | IPv6.

Definition family_eqb (f g : family) : bool :=
  match f, g with
  | IPv4, IPv4 | IPv6, IPv6 => true
  | _, _ => false
  end.

Definition family_bits (f : family) : Z :=
  match f with IPv4 => 32 | IPv6 => 128 end.

(** Modelled from the spec: the parsed IP address handed to the matcher
    (its type is missing from the sources), a family and the address read
    as one unsigned number of 32 or 128 bits. *)
Record address := Address {
  addr_family : family;
  addr_value : Z
}.

Definition well_formed (a : address) : Prop :=
  0 <= addr_value a < 2 ^ family_bits (addr_family a).

(** Modelled from the spec: NetworkRange of section 3 (missing from the
    sources), a base address plus prefix length; the family is part of its
    identity. *)
Record NetworkRange := Range {
  range_family : family;
  range_base : Z;
  range_prefix : Z
}.

Definition host_bits (r : NetworkRange) : Z :=
  family_bits (range_family r) - range_prefix r.

(** An address matches a range of its family when the two agree on the
    leading [range_prefix] bits. *)
Definition range_matches (r : NetworkRange) (a : address) : bool :=
  family_eqb (range_family r) (addr_family a)
  && (Z.shiftr (addr_value a) (host_bits r)
      =? Z.shiftr (range_base r) (host_bits r)).

(** Modelled from the spec: IsBlockedAddress of section 4.1 (missing from
    the sources), over the configured table of ranges. *)
Definition IsBlockedAddress (ranges : list NetworkRange) (a : address)
    : bool :=
  existsb (fun r => range_matches r a) ranges.

(** The same, in the words of the specification: the address lies in the
    block of [2 ^ host_bits] consecutive addresses that starts at the base
    with its host bits cleared. *)
Definition network_start (r : NetworkRange) : Z :=
  range_base r / 2 ^ host_bits r * 2 ^ host_bits r.

Definition falls_within (a : address) (r : NetworkRange) : Prop :=
  addr_family a = range_family r
  /\ network_start r <= addr_value a < network_start r + 2 ^ host_bits r.

Definition well_formed_range (r : NetworkRange) : Prop :=
  0 <= range_prefix r <= family_bits (range_family r)
  /\ 0 <= range_base r < 2 ^ family_bits (range_family r).

Definition ipv4 (a b c d : Z) : Z :=
  a * 2 ^ 24 + b * 2 ^ 16 + c * 2 ^ 8 + d.

(** Modelled from the spec: the configured table of ranges (missing from
    the sources), the ranges section 4.1 requires at minimum. *)
Definition required_ranges : list NetworkRange :=
  [ Range IPv4 (ipv4 10 0 0 0) 8;
    Range IPv4 (ipv4 172 16 0 0) 12;
    Range IPv4 (ipv4 192 168 0 0) 16;
    Range IPv4 (ipv4 127 0 0 0) 8;
    Range IPv4 (ipv4 169 254 0 0) 16;
    Range IPv6 1 128;
    Range IPv6 (0xfc00 * 2 ^ 112) 7;
    Range IPv6 (0xfe80 * 2 ^ 112) 10 ].

(** *** Verdicts and configuration *)

Inductive Reason :=
| blocked_hostname
| private_ip
| invalid_scheme
| parse_error
| safe.

(** Modelled from the spec: ClassificationVerdict of section 3 (missing
    from the sources), with its vocabulary of five reasons. *)
Record ClassificationVerdict := Verdict {
  blocked : bool;
  reason : Reason
}.

(** Modelled from the spec: the immutable configuration of sections 3 and
    9 (missing from the sources), the table of ranges and the
    HostnameBlocklist. *)
Record Config := {
  ranges : list NetworkRange;
  hostname_blocklist : list str
}.

(** Modelled from the spec: the fixed tables (missing from the sources),
    the required ranges of section 4.1 and the host names section 3 gives
    for the blocklist.  The address 169.254.169.254, for which section 8
    fixes the reason private-ip, is left to the table of ranges. *)
Definition default_config : Config :=
  {| ranges := required_ranges;
     hostname_blocklist :=
       [ py "localhost"; py "metadata.google.internal" ] |}.

(** *** Reading text *)

Definition str_eqb (a b : str) : bool :=
  (length a =? length b)%nat && starts_with a b.

Definition is_digit (c : char) : bool := ((48 <=? c) && (c <=? 57))%N.
Definition is_upper (c : char) : bool := ((65 <=? c) && (c <=? 90))%N.
Definition is_lower (c : char) : bool := ((97 <=? c) && (c <=? 122))%N.
Definition is_alpha (c : char) : bool := is_upper c || is_lower c.

Definition lower_char (c : char) : char :=
  if is_upper c then (c + 32)%N else c.
Definition lower (s : str) : str := List.map lower_char s.

Definition digit_value (c : char) : Z := Z.of_N (c - 48).

Definition hex_value (c : char) : option Z :=
  if is_digit c then Some (Z.of_N (c - 48))
  else if ((97 <=? c) && (c <=? 102))%N then Some (Z.of_N (c - 87))
  else if ((65 <=? c) && (c <=? 70))%N then Some (Z.of_N (c - 55))
  else None.

(** The text before the first character on which [stop] holds, and the
    text from that character on. *)
Fixpoint break_on (stop : char -> bool) (s : str) : str * str :=
  match s with
  | [] => ([], [])
  | c :: s' =>
      if stop c then ([], s)
      else let '(a, b) := break_on stop s' in (c :: a, b)
  end.

(** The pieces of [s] between the occurrences of [sep]. *)
Fixpoint split_on (sep : char) (s : str) : list str :=
  match s with
  | [] => [[]]
  | c :: s' =>
      if (c =? sep)%N then [] :: split_on sep s'
      else match split_on sep s' with
           | p :: ps => (c :: p) :: ps
           | [] => [[c]]
           end
  end.

(** The text before and after the first occurrence of [p]. *)
Fixpoint split_at_sub (p s : str) : option (str * str) :=
  match strip_prefix p s with
  | Some after => Some ([], after)
  | None =>
      match s with
      | [] => None
      | c :: s' =>
          match split_at_sub p s' with
          | Some (before, after) => Some (c :: before, after)
          | None => None
          end
      end
  end.

Definition decimal (s : str) : option Z :=
  match s with
  | [] => None
  | _ :: _ =>
      if forallb is_digit s
      then Some (fold_left (fun acc c => acc * 10 + digit_value c) s 0)
      else None
  end.

(** *** IP literals *)

Definition octet (s : str) : option Z :=
  if (length s <=? 3)%nat then
    match decimal s with
    | Some n => if n <=? 255 then Some n else None
    | None => None
    end
  else None.

(** Dotted quad: four decimal numbers up to 255. *)
Definition parse_ipv4 (s : str) : option Z :=
  match split_on 46%N s with
  | [a; b; c; d] =>
      match octet a, octet b, octet c, octet d with
      | Some a, Some b, Some c, Some d => Some (ipv4 a b c d)
      | _, _, _, _ => None
      end
  | _ => None
  end.

(** One group of an IPv6 literal: one to four hexadecimal digits. *)
Definition hex_group (s : str) : option Z :=
  match s with
  | [] => None
  | _ :: _ =>
      if (length s <=? 4)%nat then
        fold_left (fun acc c =>
                     match acc, hex_value c with
                     | Some n, Some d => Some (n * 16 + d)
                     | _, _ => None
                     end) s (Some 0)
      else None
  end.

(** The 16-bit groups of colon-separated pieces; with [v4_tail] the last
    piece may be a dotted quad, which stands for two groups. *)
Fixpoint groups_of (v4_tail : bool) (pieces : list str) : option (list Z) :=
  match pieces with
  | [] => Some []
  | [p] =>
      match (if v4_tail then parse_ipv4 p else None) with
      | Some v => Some [v / 2 ^ 16; v mod 2 ^ 16]
      | None =>
          match hex_group p with
          | Some g => Some [g]
          | None => None
          end
      end
  | p :: rest =>
      match hex_group p, groups_of v4_tail rest with
      | Some g, Some gs => Some (g :: gs)
      | _, _ => None
      end
  end.

Definition pieces_of (s : str) : list str :=
  match s with
  | [] => []
  | _ :: _ => split_on 58%N s
  end.

Definition groups_value (gs : list Z) : Z :=
  fold_left (fun acc g => acc * 2 ^ 16 + g) gs 0.

(** An IPv6 literal as it stands between brackets: eight groups, or fewer
    around one double colon; a zone identifier after a percent sign does
    not change the address. *)
Definition parse_ipv6 (s : str) : option Z :=
  let '(text, zone) := break_on (fun c => (c =? 37)%N) s in
  match split_at_sub (py "::") text with
  | Some (l, r) =>
      match groups_of false (pieces_of l), groups_of true (pieces_of r) with
      | Some lg, Some rg =>
          if (length lg + length rg <=? 7)%nat then
            Some (groups_value
                    (lg ++ repeat 0 (8 - (length lg + length rg)) ++ rg))
          else None
      | _, _ => None
      end
  | None =>
      match groups_of true (split_on 58%N text) with
      | Some gs =>
          if (length gs =? 8)%nat then Some (groups_value gs) else None
      | None => None
      end
  end.

(** *** URLs *)

Record URL := {
  scheme : str;
  host : str;
  bracketed : bool;
  port : option Z;
  tail : str
}.

(** A scheme: a letter, then letters, digits, plus, minus and dot. *)
Definition valid_scheme (s : str) : bool :=
  match s with
  | [] => false
  | c :: rest =>
      is_alpha c
      && forallb (fun c => is_alpha c || is_digit c
                           || (c =? 43)%N || (c =? 45)%N || (c =? 46)%N)
                 rest
  end.

(** The scheme of a URL text: what stands before the first [://], when it
    is a scheme; also the text after the [://]. *)
Definition split_scheme (s : str) : option (str * str) :=
  match split_at_sub (py "://") s with
  | Some (sch, rest) => if valid_scheme sch then Some (sch, rest) else None
  | None => None
  end.

(** The characters of a registered name: letters, digits, the unreserved
    marks (hyphen, dot, underscore, tilde), the sub-delimiters of RFC 3986
    and the percent sign. *)
Definition is_host_char (c : char) : bool :=
  is_alpha c || is_digit c
  || existsb (N.eqb c) [45; 46; 95; 126; 33; 36; 38; 39; 40; 41; 42; 43;
                        44; 59; 61; 37]%N.

(** What may follow the host: nothing, or a colon and a decimal port up
    to 65535 (possibly empty). *)
Definition parse_port (s : str) : option (option Z) :=
  match s with
  | [] => Some None
  | c :: ds =>
      if (c =? 58)%N then
        match ds with
        | [] => Some None
        | _ :: _ =>
            match decimal ds with
            | Some n => if n <=? 65535 then Some (Some n) else None
            | None => None
            end
        end
      else None
  end.

(** Modelled from the spec: the URL parse of step 1 of section 4.2
    (missing from the sources), reading a string as scheme, host, optional
    port and the rest.  The authority ends at the
    first slash, question mark or hash; user information up to the last
    at-sign is dropped; a bracketed host must be an IPv6 literal; any other
    host is a non-empty registered name. *)
Definition parse_url (s : str) : option URL :=
  match split_scheme s with
  | None => None
  | Some (sch, rest) =>
      let '(authority, tl) :=
        break_on (fun c => (c =? 47)%N || (c =? 63)%N || (c =? 35)%N) rest in
      let hostport := List.last (split_on 64%N authority) [] in
      match hostport with
      | c :: inner =>
          if (c =? 91)%N then
            let '(h, after) := break_on (fun c => (c =? 93)%N) inner in
            match after, parse_ipv6 h with
            | _ :: after', Some _ =>
                match parse_port after' with
                | Some p => Some {| scheme := sch; host := h;
                                    bracketed := true; port := p;
                                    tail := tl |}
                | None => None
                end
            | _, _ => None
            end
          else
            let '(h, after) := break_on (fun c => (c =? 58)%N) hostport in
            match h with
            | [] => None
            | _ :: _ =>
                if forallb is_host_char h then
                  match parse_port after with
                  | Some p => Some {| scheme := sch; host := h;
                                      bracketed := false; port := p;
                                      tail := tl |}
                  | None => None
                  end
                else None
            end
      | [] => None
      end
  end.

(** *** The classifier *)

(** Modelled from the spec: step 2 of section 4.2, the lower-cased host is
    one of the blocklist entries, compared without regard to case. *)
Definition on_blocklist (cfg : Config) (h : str) : bool :=
  existsb (fun entry => str_eqb (lower entry) (lower h))
          (hostname_blocklist cfg).

(** Modelled from the spec: step 3 of section 4.2, the host read as an IP
    literal, if it is one, and handed to the matcher. *)
Definition host_address (u : URL) : option address :=
  if bracketed u
  then option_map (Address IPv6) (parse_ipv6 (host u))
  else option_map (Address IPv4) (parse_ipv4 (host u)).

Definition literal_blocked (cfg : Config) (u : URL) : bool :=
  match host_address u with
  | Some a => IsBlockedAddress (ranges cfg) a
  | None => false
  end.

(** Modelled from the spec: step 4 of section 4.2, the scheme is [http]
    or [https], in any case. *)
Definition scheme_allowed (sch : str) : bool :=
  str_eqb (lower sch) (py "http") || str_eqb (lower sch) (py "https").

(** Steps 2 to 5 on a parsed URL. *)
Definition classify_url (cfg : Config) (u : URL) : ClassificationVerdict :=
  if on_blocklist cfg (host u) then Verdict true blocked_hostname
  else if literal_blocked cfg u then Verdict true private_ip
  else if negb (scheme_allowed (scheme u)) then Verdict true invalid_scheme
  else Verdict false safe.

(** Modelled from the spec: Classify of section 4.2 (missing from the
    sources), the steps in the order given there, the first that applies
    deciding. *)
Definition Classify (cfg : Config) (urlString : str)
    : ClassificationVerdict :=
  match parse_url urlString with
  | None => Verdict true parse_error
  | Some u => classify_url cfg u
  end.

(** *** The rules one by one

    The same decision read as a list of rules in priority order: each rule
    has its own condition, whatever the other rules say, and the verdict
    carries the reason of the first rule whose condition holds. *)

Definition reason_eqb (r1 r2 : Reason) : bool :=
  match r1, r2 with
  | blocked_hostname, blocked_hostname
  | private_ip, private_ip
  | invalid_scheme, invalid_scheme
  | parse_error, parse_error
  | safe, safe => true
  | _, _ => false
  end.

Definition priority : list Reason :=
  [parse_error; blocked_hostname; private_ip; invalid_scheme; safe].

Definition applies (cfg : Config) (parsed : option URL) (r : Reason) : bool :=
  match r, parsed with
  | parse_error, None => true
  | parse_error, Some _ => false
  | blocked_hostname, Some u => on_blocklist cfg (host u)
  | private_ip, Some u => literal_blocked cfg u
  | invalid_scheme, Some u => negb (scheme_allowed (scheme u))
  | safe, _ => true
  | _, None => false
  end.

End UrlSafety.


(* ===================================================================== *)
(** * Part II: properties                                                 *)
(* ===================================================================== *)

(** ** Text *)

Section StrFacts.

Implicit Types (p q s t old new : str) (c : char).

Lemma starts_with_app p t : starts_with p (p ++ t) = true.
Proof.
  induction p as [|a p IH]; simpl; [done|].
  by rewrite N.eqb_refl, IH.
Qed.

Lemma starts_with_inv p s :
  starts_with p s = true -> exists t, s = p ++ t.
Proof.
  revert s. induction p as [|a p IH]; intros s H; simpl in *.
  - by exists s.
  - destruct s as [|b s]; [done|].
    apply andb_true_iff in H as [Hab Hps].
    apply N.eqb_eq in Hab as ->.
    destruct (IH _ Hps) as [t ->]. by exists t.
Qed.

Lemma starts_with_iff p s :
  starts_with p s = true <-> exists t, s = p ++ t.
Proof.
  split; [apply starts_with_inv|]. intros [t ->]. apply starts_with_app.
Qed.

(** A text that starts [new ++ x] starts with [new] or is a start of it. *)
Lemma starts_with_app_r q new x :
  starts_with q (new ++ x) = true -> comparable q new = true.
Proof.
  unfold comparable. revert new.
  induction q as [|a q IH]; intros new H; simpl in *; [done|].
  destruct new as [|b new]; simpl in *.
  - done.
  - apply andb_true_iff in H as [Hab H]. rewrite Hab. simpl.
    rewrite N.eqb_sym, Hab. simpl. by apply IH.
Qed.

Lemma contains_iff q s : contains q s = true <-> occurs q s.
Proof.
  unfold occurs. induction s as [|c s IH]; simpl.
  - rewrite orb_false_r, starts_with_iff. split.
    + intros [t Ht]. exists [], t. done.
    + intros (a & b & Hab). destruct a; [|done]. by exists b.
  - rewrite orb_true_iff, starts_with_iff, IH. split.
    + intros [[t Ht]|(a & b & Hab)].
      * exists [], t. done.
      * exists (c :: a), b. by rewrite Hab.
    + intros (a & b & Hab). destruct a as [|c' a]; simpl in Hab.
      * left. by exists b.
      * right. exists a, b. congruence.
Qed.

Lemma contains_app_r q a s :
  contains q s = true -> contains q (a ++ s) = true.
Proof.
  rewrite !contains_iff. intros (x & y & ->).
  exists (a ++ x), y. by rewrite <- app_assoc.
Qed.

Lemma tails_tail c q q0 :
  In (c :: q) (tails q0) -> q = [] \/ In q (tails q0).
Proof.
  induction q0 as [|d q0 IH]; simpl; [done|].
  intros [Heq|Hin].
  - injection Heq as <- <-. destruct q0; [by left|]. right. right. by left.
  - destruct (IH Hin) as [->|H]; [by left|]. right. by right.
Qed.

Lemma tails_self q : q <> [] -> In q (tails q).
Proof. destruct q; [done|]. intros _. by left. Qed.

End StrFacts.

(** ** [str.replace] with a non-empty pattern *)

Lemma nonempty_length (s : str) : s <> [] -> (1 <= length s)%nat.
Proof. destruct s; [done|]. simpl. lia. Qed.

Lemma contains_nil (q : str) : q <> [] -> contains q [] = false.
Proof. by destruct q. Qed.

Lemma replace_unfold (old new s : str) :
  old <> [] -> replace old new s = replace_from (length s) old new s.
Proof. by destruct old. Qed.

Section Replace.

Variables old new : str.
Hypothesis old_nonempty : old <> [].

Implicit Types (q s t : str) (c : char).

Lemma replace_from_fuel f1 f2 s :
  (length s <= f1)%nat -> (length s <= f2)%nat ->
  replace_from f1 old new s = replace_from f2 old new s.
Proof using old_nonempty.
  revert f2 s. induction f1 as [|f1 IH]; intros f2 s H1 H2.
  - destruct s; [|simpl in H1; lia]. by destruct f2.
  - destruct f2 as [|f2].
    { destruct s; [done|simpl in H2; lia]. }
    destruct s as [|c s]; [done|]. simpl in H1, H2.
    cbn [replace_from]. destruct (starts_with old (c :: s)).
    + pose proof (nonempty_length old old_nonempty).
      f_equal. apply IH; rewrite length_drop; simpl; lia.
    + f_equal. apply IH; lia.
Qed.

Lemma replace_nil : replace old new [] = [].
Proof using old_nonempty. by rewrite replace_unfold. Qed.

Lemma replace_skip c s :
  starts_with old (c :: s) = false ->
  replace old new (c :: s) = c :: replace old new s.
Proof using old_nonempty.
  intros H. rewrite !replace_unfold by done.
  cbn [length replace_from]. by rewrite H.
Qed.

Lemma replace_hit t :
  replace old new (old ++ t) = new ++ replace old new t.
Proof using old_nonempty.
  rewrite !replace_unfold by done.
  pose proof (nonempty_length old old_nonempty) as Hold.
  rewrite length_app.
  destruct (length old + length t)%nat as [|n] eqn:Hlen; [lia|].
  cbn [replace_from].
  destruct (old ++ t) as [|c s] eqn:Es.
  { apply (f_equal length) in Es. rewrite length_app in Es. simpl in Es. lia. }
  rewrite <- Es, starts_with_app, drop_app_length.
  f_equal. apply replace_from_fuel; lia.
Qed.

(** Induction along the scan: the empty text, a copied character, a
    replaced occurrence. *)
Lemma scan_ind (P : str -> Prop) :
  P [] ->
  (forall c s, starts_with old (c :: s) = false -> P s -> P (c :: s)) ->
  (forall t, P t -> P (old ++ t)) ->
  forall s, P s.
Proof using old_nonempty.
  intros Hnil Hskip Hhit s.
  remember (length s) as n eqn:Hn.
  assert (Hle : (length s <= n)%nat) by lia. clear Hn.
  revert s Hle. induction n as [|n IH]; intros s Hle.
  - destruct s; [done|simpl in Hle; lia].
  - destruct s as [|c s]; [done|]. simpl in Hle.
    destruct (starts_with old (c :: s)) eqn:E.
    + apply starts_with_inv in E as [t Ht]. rewrite Ht. apply Hhit, IH.
      pose proof (nonempty_length old old_nonempty).
      apply (f_equal length) in Ht. rewrite length_app in Ht. simpl in Ht.
      lia.
    + apply Hskip; [done|]. apply IH. lia.
Qed.

(** A text without occurrence of the pattern is left as it is. *)
Lemma replace_absent s :
  contains old s = false -> replace old new s = s.
Proof using old_nonempty.
  induction s as [|c s IH]; intros H.
  - apply replace_nil.
  - simpl in H. apply orb_false_iff in H as [H1 H2].
    rewrite replace_skip by done. f_equal. by apply IH.
Qed.

(** A suffix of [q] that starts the result started the input already,
    when no non-empty suffix of [q] is comparable with [new]. *)
Lemma starts_through_replace q :
  forallb (fun q' => negb (comparable q' new)) (tails q) = true ->
  forall q' s,
    q' = [] \/ In q' (tails q) ->
    starts_with q' (replace old new s) = true ->
    starts_with q' s = true.
Proof using old_nonempty.
  intros Hq. rewrite forallb_forall in Hq.
  induction q' as [|c q' IH]; intros s Hin H; [done|].
  destruct Hin as [?|Hin]; [done|].
  destruct s as [|d s].
  { by rewrite replace_nil in H. }
  destruct (starts_with old (d :: s)) eqn:E.
  - apply starts_with_inv in E as [t Ht]. rewrite Ht, replace_hit in H.
    apply starts_with_app_r in H. apply Hq in Hin. by rewrite H in Hin.
  - rewrite replace_skip in H by done. simpl in *.
    apply andb_true_iff in H as [-> H]. simpl.
    apply IH; [|done]. eapply tails_tail, Hin.
Qed.

(** An occurrence of [q] in [new ++ r] lies in [r], when no non-empty
    suffix of [new] is comparable with [q]. *)
Lemma contains_after_new q r :
  forallb (fun n' => negb (comparable n' q)) (tails new) = true ->
  contains q (new ++ r) = true -> contains q r = true.
Proof.
  clear old_nonempty. induction new as [|c n IH]; intros Hn H; [done|].
  simpl in Hn. apply andb_true_iff in Hn as [Hc Hn].
  simpl in H. apply orb_true_iff in H as [H|H].
  - apply (starts_with_app_r q (c :: n) r) in H.
    unfold comparable in *. rewrite orb_comm in H. by rewrite H in Hc.
  - by apply IH.
Qed.

(** Replacing does not bring in an occurrence of a clash-free [q]. *)
Lemma replace_keeps_absent q s :
  clash_free q new = true ->
  contains q s = false -> contains q (replace old new s) = false.
Proof using old_nonempty.
  intros Hcf. apply andb_true_iff in Hcf as [Hq Hn].
  induction s as [| c s Hc IH | t IH] using scan_ind; intros H.
  - by rewrite replace_nil.
  - simpl in H. apply orb_false_iff in H as [H1 H2].
    rewrite replace_skip by done. simpl. apply orb_false_iff. split.
    + destruct (starts_with q (c :: replace old new s)) eqn:E; [|done].
      rewrite <- (replace_skip c s Hc) in E.
      destruct q as [|a q]; [done|].
      eapply starts_through_replace in E; [|done|right; by left].
      by rewrite E in H1.
    + by apply IH.
  - rewrite replace_hit.
    destruct (contains q (new ++ replace old new t)) eqn:E; [|done].
    apply contains_after_new in E; [|done].
    rewrite IH in E; [done|].
    destruct (contains q t) eqn:Et; [|done].
    by rewrite (contains_app_r q old t Et) in H.
Qed.

(** After replacing, the pattern itself occurs no more, when it is
    clash-free with the replacement text. *)
Lemma replace_removes s :
  clash_free old new = true ->
  contains old (replace old new s) = false.
Proof using old_nonempty.
  intros Hcf. apply andb_true_iff in Hcf as [Hq Hn].
  induction s as [| c s Hc IH | t IH] using scan_ind.
  - rewrite replace_nil. by apply contains_nil.
  - rewrite replace_skip by done. simpl. apply orb_false_iff. split; [|done].
    destruct (starts_with old (c :: replace old new s)) eqn:E; [|done].
    rewrite <- (replace_skip c s Hc) in E.
    eapply starts_through_replace in E; [|done|right; by apply tails_self].
    by rewrite E in Hc.
  - rewrite replace_hit.
    destruct (contains old (new ++ replace old new t)) eqn:E; [|done].
    apply contains_after_new in E; [|done]. by rewrite IH in E.
Qed.

Lemma join_cons_head (sep : str) c (g : str) (gs : list str) :
  join sep ((c :: g) :: gs) = c :: join sep (g :: gs).
Proof. clear. by destruct gs. Qed.

Lemma join_head (sep g : str) (gs : list str) : exists r, join sep (g :: gs) = g ++ r.
Proof.
  clear. destruct gs as [|g' gs].
  - exists []. simpl. by rewrite app_nil_r.
  - by exists (sep ++ join sep (g' :: gs)).
Qed.

Lemma join_cons_nil (sep : str) (gs : list str) :
  gs <> [] -> join sep ([] :: gs) = sep ++ join sep gs.
Proof. clear. by destruct gs. Qed.

(** The text is cut at the replaced occurrences into segments none of which
    contains the pattern: the input is the segments joined by [old], the
    result the same segments joined by [new]. *)
Lemma replace_segments s :
  exists segs,
    segs <> []
    /\ s = join old segs
    /\ replace old new s = join new segs
    /\ Forall (fun g => contains old g = false) segs.
Proof using old_nonempty.
  induction s as [| c s Hc IH | t IH] using scan_ind.
  - exists [[]]. rewrite replace_nil. repeat split; try done.
    constructor; [by apply contains_nil|constructor].
  - destruct IH as (segs & Hne & Hs & Hr & Hall).
    destruct segs as [|g gs]; [done|].
    exists ((c :: g) :: gs). rewrite replace_skip by done.
    rewrite !join_cons_head, <- Hs, <- Hr. repeat split; try done.
    apply Forall_cons in Hall as [Hg Hgs]. constructor; [|done].
    simpl. rewrite Hg, orb_false_r.
    destruct (starts_with old (c :: g)) eqn:E; [|done].
    apply starts_with_inv in E as [u Hu].
    destruct (join_head old g gs) as [r Hjoin].
    assert (starts_with old (c :: s) = true) as Habs; [|by rewrite Habs in Hc].
    apply starts_with_iff. exists (u ++ r).
    rewrite Hs, Hjoin. change ((c :: g) ++ r = old ++ u ++ r).
    rewrite Hu. by rewrite <- app_assoc.
  - destruct IH as (segs & Hne & Hs & Hr & Hall).
    exists ([] :: segs). rewrite replace_hit, !join_cons_nil by done.
    rewrite <- Hs, <- Hr. repeat split; try done.
    constructor; [by apply contains_nil|done].
Qed.

End Replace.

(** ** The replacement loop of fix-inline-schemas.py *)

Section ReplaceAll.

Import FixInlineSchemas.

Variable all : list (str * str).
Hypothesis all_ok : all_clash_free all = true.

Lemma all_clash_free_in q n p nw :
  In (q, n) all -> In (p, nw) all -> q <> [] /\ clash_free q nw = true.
Proof using all_ok.
  intros Hq Hp. unfold all_clash_free in all_ok.
  rewrite forallb_forall in all_ok. specialize (all_ok _ Hq). simpl in all_ok.
  apply andb_true_iff in all_ok as [Hne Hcf].
  rewrite forallb_forall in Hcf. specialize (Hcf _ Hp). simpl in Hcf.
  split; [by destruct q|done].
Qed.

(** Once a pattern has been dealt with it stays absent to the end of the
    loop. *)
Lemma replace_all_clears rs :
  forall done s,
    done ++ rs = all ->
    (forall q n, In (q, n) done -> contains q s = false) ->
    forall q n, In (q, n) all -> contains q (replace_all rs s) = false.
Proof using all_ok.
  induction rs as [|[p nw] rs IH]; intros done s Hall Hdone q n Hq.
  - rewrite app_nil_r in Hall. subst done. simpl. by apply (Hdone q n).
  - simpl. assert (Hp : In (p, nw) all).
    { rewrite <- Hall. apply in_or_app. right. by left. }
    refine (IH (done ++ [(p, nw)]) _ _ _ q n Hq); [by rewrite <- app_assoc|].
    intros q' n' Hin. apply in_app_or in Hin as [Hin|[Heq|[]]].
    + assert (Hq' : In (q', n') all).
      { rewrite <- Hall. apply in_or_app. by left. }
      destruct (all_clash_free_in _ _ _ _ Hp Hp) as [Hne _].
      destruct (all_clash_free_in _ _ _ _ Hq' Hp) as [_ Hcf].
      apply replace_keeps_absent; [done..|]. by apply (Hdone q' n').
    + injection Heq as <- <-.
      destruct (all_clash_free_in _ _ _ _ Hp Hp) as [Hne Hcf].
      by apply replace_removes.
Qed.

End ReplaceAll.

Lemma replace_all_fixed rs s :
  (forall q n, In (q, n) rs -> q <> [] /\ contains q s = false) ->
  FixInlineSchemas.replace_all rs s = s.
Proof.
  induction rs as [|[p nw] rs IH]; intros H; [done|]. simpl.
  destruct (H p nw) as [Hne Hp]; [by left|].
  rewrite replace_absent by done. apply IH.
  intros q n Hq. apply (H q n). by right.
Qed.

Lemma rewrites_clash_free :
  FixInlineSchemas.all_clash_free FixInlineSchemas.rewrites = true.
Proof. vm_compute. reflexivity. Qed.

(** ** The matcher against the declarative reading of patterns *)

Section RegexFacts.

Implicit Types (s t m a b rest : str) (c : char) (pat : list node).

Lemma strip_prefix_iff t s rest :
  strip_prefix t s = Some rest <-> s = t ++ rest.
Proof.
  revert s. induction t as [|x t IH]; intros s; simpl.
  - split; [by intros [= ->]|by intros ->].
  - destruct s as [|y s]; [done|].
    destruct (N.eqb_spec x y) as [->|Hne].
    + rewrite IH. split; [by intros ->|by intros [= ->]].
    + split; [done|]. intros [= -> _]. done.
Qed.

(** What [greedy] answers is a split of the text after a stretch of the
    class that is long enough, on which the rest of the pattern agrees. *)
Lemma greedy_sound cls min k taken s a' r :
  greedy cls min k taken s = Some (a', r) ->
  exists a b,
    s = a ++ b /\ forallb cls a = true /\ a' = taken ++ a
    /\ (min <= length a')%nat /\ k b = Some r.
Proof.
  revert taken. induction s as [|c s IH]; intros taken H.
  - simpl in H. destruct (min <=? length taken)%nat eqn:Hmin; [|done].
    destruct (k []) as [r'|] eqn:Hk; [|done]. injection H as <- <-.
    exists [], []. apply Nat.leb_le in Hmin.
    repeat split; rewrite ?app_nil_r; done.
  - assert (Hstop :
      (if (min <=? length taken)%nat
       then option_map (pair taken) (k (c :: s)) else None) = Some (a', r) ->
      exists a b, c :: s = a ++ b /\ forallb cls a = true
                  /\ a' = taken ++ a /\ (min <= length a')%nat
                  /\ k b = Some r).
    { intros Hs. destruct (min <=? length taken)%nat eqn:Hmin; [|done].
      destruct (k (c :: s)) as [r'|] eqn:Hk; [|done]. injection Hs as <- <-.
      exists [], (c :: s). apply Nat.leb_le in Hmin.
      repeat split; rewrite ?app_nil_r; done. }
    cbn [greedy] in H. destruct (cls c) eqn:Hc; [|by apply Hstop].
    destruct (greedy cls min k (taken ++ [c]) s) as [r'|] eqn:Hg;
      [|by apply Hstop].
    injection H as ->.
    destruct (IH _ Hg) as (a & b & -> & Ha & -> & Hlen & Hk).
    exists (c :: a), b. simpl. rewrite <- app_assoc in Hlen |- *.
    rewrite Hc, Ha. by repeat split.
Qed.

(** [greedy] finds an answer whenever some split allows one. *)
Lemma greedy_explores cls min k taken a b :
  forallb cls a = true ->
  (min <= length (taken ++ a))%nat ->
  is_Some (k b) ->
  is_Some (greedy cls min k taken (a ++ b)).
Proof.
  revert taken. induction a as [|c a IH]; intros taken Ha Hmin Hk.
  - rewrite app_nil_r in Hmin. apply Nat.leb_le in Hmin.
    destruct Hk as [r Hk].
    assert (Hstop : is_Some
      (if (min <=? length taken)%nat
       then option_map (pair taken) (k b) else None)).
    { rewrite Hmin, Hk. by eexists. }
    destruct b as [|c b]; [done|]. cbn [app greedy].
    destruct (cls c); [|done].
    by destruct (greedy cls min k (taken ++ [c]) b).
  - simpl in Ha. apply andb_true_iff in Ha as [Hc Ha].
    cbn [app greedy]. rewrite Hc.
    destruct (IH (taken ++ [c])) as [r Hr]; [done| |done|].
    + by rewrite <- app_assoc.
    + rewrite Hr. by eexists.
Qed.

(** The matcher only reports matches of the pattern. *)
Lemma match_sound pat s groups rest :
  match_here pat s = Some (groups, rest) ->
  exists m, s = m ++ rest /\ matches pat m groups.
Proof.
  revert s groups. induction pat as [|[text|capture cls min] pat IH];
    intros s groups H; simpl in H.
  - injection H as <- <-. exists []. split; [done|constructor].
  - destruct (strip_prefix text s) as [s'|] eqn:Hs; [|done].
    apply strip_prefix_iff in Hs as ->.
    destruct (IH _ _ H) as (m & -> & Hm).
    exists (text ++ m). rewrite <- app_assoc. split; [done|by constructor].
  - destruct (greedy cls min (match_here pat) [] s) as [[a [gs r]]|] eqn:Hg;
      [|done].
    injection H as <- <-.
    apply greedy_sound in Hg as (a0 & b & -> & Ha & -> & Hlen & Hk).
    destruct (IH _ _ Hk) as (m & -> & Hm).
    exists (a0 ++ m). rewrite <- app_assoc. split; [done|].
    simpl. by constructor.
Qed.

(** The matcher finds a match wherever the text starts with one. *)
Lemma match_complete pat m groups :
  matches pat m groups ->
  forall rest, is_Some (match_here pat (m ++ rest)).
Proof.
  induction 1 as [|text pat m groups Hm IH
                  |capture cls min pat a m groups Ha Hmin Hm IH];
    intros rest; cbn [match_here].
  - by eexists.
  - rewrite <- app_assoc.
    destruct (strip_prefix text (text ++ m ++ rest)) as [s'|] eqn:Hs.
    + apply strip_prefix_iff, app_inv_head in Hs as <-. apply IH.
    + assert (strip_prefix text (text ++ m ++ rest) = Some (m ++ rest))
        as Hs' by by apply strip_prefix_iff.
      congruence.
  - rewrite <- app_assoc.
    destruct (greedy_explores cls min (match_here pat) [] a (m ++ rest))
      as [[a' [gs r]] Hr]; [done..|].
    rewrite Hr. by eexists.
Qed.

End RegexFacts.

(** ** [tool_pattern] and the conversion of fix-tools.py *)

Section ToolFacts.

Import FixTools.

Implicit Types (s m rest out : str) (w : world).

Lemma nonempty_iff s : nonempty s = true <-> (1 <= length s)%nat.
Proof. destruct s; simpl; split; (done || lia). Qed.

(** The texts [tool_pattern] matches are the well-formed calls, and the
    groups are the name, description, schema and parameters. *)
Lemma tool_pattern_shape m groups :
  matches tool_pattern m groups ->
  exists t, well_formed_call t = true /\ m = call_text t
            /\ groups = [call_name t; call_description t; call_schema t;
                         call_params t].
Proof.
  unfold tool_pattern. intros H.
  repeat match goal with
         | H : matches (_ :: _) _ _ |- _ => inversion H; subst; clear H
         | H : matches [] _ _ |- _ => inversion H; subst; clear H
         end.
  repeat match goal with
         | H : (1 <= length _)%nat |- _ => apply nonempty_iff in H
         | H : (0 <= length _)%nat |- _ => clear H
         end.
  rewrite app_nil_r.
  eexists (Build_tool_call _ _ _ _ _ _ _ _ _ _ _).
  unfold well_formed_call, call_text. cbn [call_name call_description
    call_schema call_params sp1 sp2 sp3 sp4 sp5 sp6 sp7].
  split; [|split; reflexivity].
  repeat (apply andb_true_iff; split); done.
Qed.

Lemma matches_lit_end text : matches [Lit text] text [].
Proof.
  rewrite <- (app_nil_r text) at 2. apply matches_lit. constructor.
Qed.

Lemma call_matches t :
  well_formed_call t = true ->
  matches tool_pattern (call_text t)
          [call_name t; call_description t; call_schema t; call_params t].
Proof.
  unfold well_formed_call. intros H.
  repeat match goal with
         | H : _ && _ = true |- _ => apply andb_true_iff in H as [H ?]
         end.
  repeat match goal with
         | H : nonempty _ = true |- _ => apply nonempty_iff in H
         end.
  unfold call_text, tool_pattern.
  apply matches_lit.
  apply (matches_rep false); [done|lia|]. apply matches_lit.
  apply (matches_rep true _ _ _ (call_name t)); [done..|]. apply matches_lit.
  apply (matches_rep false); [done|lia|]. apply matches_lit.
  apply (matches_rep true _ _ _ (call_description t)); [done..|].
  apply matches_lit.
  apply (matches_rep false); [done|lia|]. apply matches_lit.
  apply (matches_rep true _ _ _ (call_schema t)); [done..|].
  apply matches_lit.
  apply (matches_rep false); [done|lia|]. apply matches_lit.
  apply (matches_rep false); [done|lia|]. apply matches_lit.
  apply (matches_rep true _ _ _ (call_params t)); [done|lia|].
  apply matches_lit.
  apply (matches_rep false); [done|lia|]. apply matches_lit.
  apply (matches_rep false); [done|lia|]. apply matches_lit_end.
Qed.

Lemma call_text_length t : (1 <= length (call_text t))%nat.
Proof. unfold call_text. rewrite length_app. simpl. lia. Qed.

(** Where the matcher fails no call starts. *)
Lemma no_match_no_call s :
  match_here tool_pattern s = None -> ~ starts_with_call s.
Proof.
  intros Hnone (t & rest & Hwf & ->).
  destruct (match_complete _ _ _ (call_matches t Hwf) rest) as [r Hr].
  congruence.
Qed.

(** Where the matcher succeeds a call starts, and the groups are its
    parts. *)
Lemma match_is_call s groups rest :
  match_here tool_pattern s = Some (groups, rest) ->
  exists t, well_formed_call t = true /\ s = call_text t ++ rest
            /\ groups = [call_name t; call_description t; call_schema t;
                         call_params t].
Proof.
  intros H. apply match_sound in H as (m & -> & Hm).
  apply tool_pattern_shape in Hm as (t & Hwf & -> & ->). by exists t.
Qed.

Lemma print_all_nil w : print_all [] w = w.
Proof. destruct w. unfold print_all. simpl. by rewrite app_nil_r. Qed.

Lemma print_all_cons line lines w :
  print_all lines (World (files w) (stdout w ++ [line]) (fileops w))
  = print_all (line :: lines) w.
Proof. unfold print_all. simpl. by rewrite <- app_assoc. Qed.

Lemma io_bind_run {A B} (m : io A) (k : A -> io B) w a w' :
  m w = (Done a, w') -> (m ≫= k) w = k a w'.
Proof. intros H. unfold mbind, io_bind, IO.bind. by rewrite H. Qed.

Lemma replace_tool_run n d sc pa w :
  replace_tool [n; d; sc; pa] w
  = (Done (register_call n d todo_schema todo_params),
     World (files w) (stdout w ++ [py "Converting tool: " ++ n])
           (fileops w)).
Proof. reflexivity. Qed.

(** The scan of [re.sub] carries out the conversion as described; it always
    ends normally and does nothing but print its reports. *)
Lemma sub_from_converts fuel s w :
  (length s <= fuel)%nat ->
  exists out log,
    converts s out log
    /\ sub_from fuel tool_pattern replace_tool s w
       = (Done out, print_all log w).
Proof.
  revert s w. induction fuel as [|fuel IH]; intros s w Hlen.
  - destruct s; [|simpl in Hlen; lia].
    exists [], []. split; [constructor|]. simpl. by rewrite print_all_nil.
  - cbn [sub_from].
    destruct (match_here tool_pattern s) as [[groups rest]|] eqn:Hm.
    + apply match_is_call in Hm as (t & Hwf & -> & ->).
      pose proof (call_text_length t) as Ht.
      rewrite length_app in Hlen.
      set (w1 := World (files w)
                       (stdout w ++ [py "Converting tool: " ++ call_name t])
                       (fileops w)).
      destruct (IH rest w1) as (out & log & Hconv & Hrun); [lia|].
      exists (register_call (call_name t) (call_description t)
                            todo_schema todo_params ++ out),
             ((py "Converting tool: " ++ call_name t) :: log).
      split; [by constructor|].
      erewrite io_bind_run by apply replace_tool_run.
      erewrite io_bind_run by exact Hrun.
      unfold w1. by rewrite print_all_cons.
    + destruct s as [|c s].
      * exists [], []. split; [constructor|]. by rewrite print_all_nil.
      * simpl in Hlen. destruct (IH s w) as (out & log & Hconv & Hrun); [lia|].
        exists (c :: out), log. split.
        -- constructor; [by apply no_match_no_call|done].
        -- by erewrite io_bind_run by exact Hrun.
Qed.

(** A text without any call is left as it is, without report. *)
Lemma converts_no_call s out log :
  converts s out log -> ~ has_call s -> out = s /\ log = [].
Proof.
  induction 1 as [|c s out log Hc Hconv IH|t rest out log Hwf Hconv IH];
    intros Hno.
  - done.
  - destruct IH as [-> ->]; [|done].
    intros (a & t & b & Hwf & ->). apply Hno.
    by exists (c :: a), t, b.
  - exfalso. apply Hno. by exists [], t, rest.
Qed.

End ToolFacts.

(** ** Concrete runs *)

Example replace_overlapping :
  replace (py "aa") (py "b") (py "aaaaa") = py "bba".
Proof. reflexivity. Qed.

Example replace_empty_pattern :
  replace [] (py "-") (py "abc") = py "-a-b-c-".
Proof. reflexivity. Qed.

Example fix_content_two_schemas :
  FixInlineSchemas.fix_content
    (py "a: { inputSchema: ExtractMetadataSchema }, b: { inputSchema: AnalyzeContentSchema }")
  = py "a: { inputSchema: {
    url: z.string().url()
  } }, b: { inputSchema: {
    text: z.string(),
    options: z.object({}).optional()
  } }".
Proof. vm_compute. reflexivity. Qed.

Example convert_one_tool :
  FixTools.convert_tool_to_register_tool
    (py "x; server.tool(" ++ [dquote] ++ py "fetch" ++ [dquote] ++ py ", "
     ++ [dquote] ++ py "Fetch a url" ++ [dquote]
     ++ py ", { url: z.string() }, async ({ url }) => { body });")
    (World ∅ [] [])
  = (Done
       (py "x; server.registerTool(" ++ [dquote] ++ py "fetch" ++ [dquote]
        ++ py ", {
  description: " ++ [dquote] ++ py "Fetch a url" ++ [dquote] ++ py ",
  inputSchema: {
    // TODO: Define proper Zod schemas here
  }
}, async (/* TODO: Add destructured parameters */) => { body });"),
     World ∅ [py "Converting tool: fetch"] []).
Proof. vm_compute. reflexivity. Qed.

Example convert_nested_call :
  FixTools.convert_tool_to_register_tool
    (py "server.tool(" ++ [dquote] ++ py "a" ++ [dquote] ++ py ","
     ++ [dquote] ++ py "b" ++ [dquote]
     ++ py ",{ server.tool(" ++ [dquote] ++ py "c" ++ [dquote] ++ py ","
     ++ [dquote] ++ py "d" ++ [dquote] ++ py ",{e},async()=>{")
    (World ∅ [] [])
  = (Done
       (FixTools.register_call (py "a") (py "b") FixTools.todo_schema
                               FixTools.todo_params),
     World ∅ [py "Converting tool: a"] []).
Proof. vm_compute. reflexivity. Qed.

Example classify_more_seeds :
  UrlSafety.Classify UrlSafety.default_config
    (py "http://127.0.0.1:8080/admin")
  = UrlSafety.Verdict true UrlSafety.private_ip
  /\ UrlSafety.Classify UrlSafety.default_config (py "http://192.168.1.1/")
     = UrlSafety.Verdict true UrlSafety.private_ip
  /\ UrlSafety.Classify UrlSafety.default_config (py "http://[::1]/")
     = UrlSafety.Verdict true UrlSafety.private_ip
  /\ UrlSafety.Classify UrlSafety.default_config
       (py "http://[fe80::1%25eth0]:8080/")
     = UrlSafety.Verdict true UrlSafety.private_ip
  /\ UrlSafety.Classify UrlSafety.default_config (py "HTTPS://8.8.8.8/")
     = UrlSafety.Verdict false UrlSafety.safe.
Proof. repeat split; vm_compute; reflexivity. Qed.

(** ** The rewrite scripts *)

Section Scripts.

Import FixInlineSchemas FixTools.

Lemma rewrites_nonempty old new : In (old, new) rewrites -> old <> [].
Proof.
  intros H.
  by destruct (all_clash_free_in _ rewrites_clash_free _ _ _ _ H H).
Qed.

(** Each pass of the loop replaces every occurrence and nothing else. *)
Lemma replace_all_in_turn rs s :
  (forall old new, In (old, new) rs -> old <> []) ->
  replaced_in_turn rs s (replace_all rs s).
Proof.
  revert s. induction rs as [|[old new] rs IH]; intros s Hne; simpl.
  - constructor.
  - assert (Hold : old <> []) by (apply (Hne old new); by left).
    apply in_turn_cons with (s' := replace old new s).
    + destruct (replace_segments old new Hold s)
        as (segs & Hsegs & Hs & Hr & Hfree).
      exists segs. repeat split; try done.
      eapply Forall_impl; [exact Hfree|]. intros g Hg Hocc. simpl in Hg.
      apply contains_iff in Hocc. congruence.
    + apply IH. intros o n Hin. apply (Hne o n). by right.
Qed.

(** After the loop none of the patterns occurs. *)
Lemma fix_content_clear content old new :
  In (old, new) rewrites -> ~ occurs old (fix_content content).
Proof.
  intros Hin Hocc. apply contains_iff in Hocc.
  assert (Hc : contains old (replace_all rewrites content) = false).
  { apply (replace_all_clears rewrites rewrites_clash_free rewrites []
             content eq_refl) with (n := new); [|exact Hin].
    intros q n []. }
  unfold fix_content in Hocc. congruence.
Qed.

Lemma has_call_found s :
  has_call s ->
  existsb (fun t => bool_decide (is_Some (match_here tool_pattern t)))
          (tails s) = true.
Proof.
  intros (a & t & b & Hwf & ->). apply existsb_exists.
  exists (call_text t ++ b). split.
  - pose proof (call_text_length t) as Hlen. clear Hwf.
    induction a as [|c a IH]; simpl.
    + destruct (call_text t ++ b) eqn:E; [|by left].
      apply (f_equal length) in E. rewrite length_app in E. simpl in E. lia.
    + by right.
  - apply bool_decide_eq_true.
    apply (match_complete _ _ _ (call_matches t Hwf)).
Qed.

End Scripts.

(** C10: when fix-tools.py is started with a number of command-line
    arguments other than exactly one file path (the length of [sys.argv] is
    not 2), it prints the usage message and exits with status 1; no file
    has been opened, read or written, and the files are as they were. *)
Theorem fix_tools_usage_exit (argv : list str) (w : world) :
  length argv <> 2%nat ->
  FixTools.main argv w
  = (Exited 1%Z,
     World (files w) (stdout w ++ [FixTools.usage]) (fileops w)).
Proof.
  intros Hlen. unfold FixTools.main.
  destruct (length argv =? 2)%nat eqn:E.
  - apply Nat.eqb_eq in E. done.
  - reflexivity.
Qed.

Lemma fix_tools_usage_exit_witness :
  length [py "fix-tools.py"] <> 2%nat
  /\ FixTools.main [py "fix-tools.py"] (World ∅ [] [])
     = (Exited 1%Z, World ∅ [FixTools.usage] []).
Proof.
  split.
  - simpl. lia.
  - apply (fix_tools_usage_exit [py "fix-tools.py"] (World ∅ [] [])).
    simpl. lia.
Defined.

(** C8: the replacement pass of fix-inline-schemas.py is idempotent: for
    every text, going through the nine replacements twice gives the same
    text as going through them once, because after the pass none of the
    nine patterns occurs in the text, and no replacement text (hence no
    inline definition) contains any of the nine patterns. *)
Theorem fix_content_idempotent (content : str) :
  FixInlineSchemas.fix_content (FixInlineSchemas.fix_content content)
  = FixInlineSchemas.fix_content content
  /\ Forall (fun '(old, _) =>
               ~ occurs old (FixInlineSchemas.fix_content content))
            FixInlineSchemas.rewrites
  /\ Forall (fun '(old, _) =>
               Forall (fun '(_, new) => ~ occurs old new)
                      FixInlineSchemas.rewrites)
            FixInlineSchemas.rewrites.
Proof.
  split; [|split].
  - apply replace_all_fixed. intros q n Hin. split.
    + by apply (rewrites_nonempty q n).
    + destruct (contains q (FixInlineSchemas.fix_content content)) eqn:E;
        [|done].
      apply contains_iff in E.
      exfalso. exact (fix_content_clear content q n Hin E).
  - apply Forall_forall. intros [old new] Hin%list_elem_of_In.
    by apply (fix_content_clear content old new).
  - assert (Hc : forallb (fun '(old, _) =>
                   forallb (fun '(_, new) => negb (contains old new))
                           FixInlineSchemas.rewrites)
                   FixInlineSchemas.rewrites = true)
      by (vm_compute; reflexivity).
    rewrite forallb_forall in Hc.
    apply Forall_forall. intros [old new] Hin%list_elem_of_In.
    specialize (Hc _ Hin). cbv beta iota in Hc.
    rewrite forallb_forall in Hc.
    apply Forall_forall. intros [old' new'] Hin'%list_elem_of_In.
    specialize (Hc _ Hin'). cbv beta iota in Hc.
    intros Hocc%contains_iff. by rewrite Hocc in Hc.
Qed.

(** C7: each rewrite script reads one file, applies its text transformation
    and writes the result back.  fix-inline-schemas.py reads [server.js],
    replaces, for each of its nine schema names in turn, every occurrence
    of [inputSchema: <SchemaName>] by [inputSchema: <inline definition>]
    and leaves all other text unchanged, writes the result to [server.js]
    and prints its confirmation; fix-tools.py reads the file named by its
    argument, applies the conversion of the [server.tool] calls and writes
    the result to the same file. *)
Theorem rewrite_scripts_read_transform_write
    (w : world) (content tools_content prog path : str) :
  files w !! FixInlineSchemas.server_js = Some content ->
  files w !! path = Some tools_content ->
  (FixInlineSchemas.main w
   = (Done tt,
      World (<[FixInlineSchemas.server_js :=
                 FixInlineSchemas.fix_content content]> (files w))
            (stdout w ++ [FixInlineSchemas.confirmation])
            (fileops w ++ [OpenRead FixInlineSchemas.server_js;
                           OpenWrite FixInlineSchemas.server_js]))
   /\ length FixInlineSchemas.schema_replacements = 9%nat
   /\ FixInlineSchemas.rewrites
      = List.map (fun '(schema_name, inline_def) =>
                    (py "inputSchema: " ++ schema_name,
                     py "inputSchema: " ++ inline_def))
                 FixInlineSchemas.schema_replacements
   /\ FixInlineSchemas.replaced_in_turn
        FixInlineSchemas.rewrites content
        (FixInlineSchemas.fix_content content))
  /\ (exists out log,
        FixTools.converts tools_content out log
        /\ FixTools.main [prog; path] w
           = (Done tt,
              World (<[path := out]> (files w))
                    (stdout w ++ log ++ [FixTools.completed])
                    (fileops w ++ [OpenRead path; OpenWrite path]))).
Proof.
  intros Hserver Htools. split; [repeat split|].
  - unfold FixInlineSchemas.main.
    erewrite io_bind_run
      by (unfold read_file; rewrite Hserver; reflexivity).
    unfold mbind, io_bind, IO.bind, write_file, print. simpl.
    by rewrite <- app_assoc.
  - apply replace_all_in_turn. apply rewrites_nonempty.
  - set (w1 := World (files w) (stdout w) (fileops w ++ [OpenRead path])).
    destruct (sub_from_converts (length tools_content) tools_content w1)
      as (out & log & Hconv & Hrun); [done|].
    exists out, log. split; [done|].
    unfold FixTools.main. cbn [length Nat.eqb negb nth].
    erewrite io_bind_run
      by (unfold read_file; rewrite Htools; reflexivity).
    fold w1. unfold FixTools.convert_tool_to_register_tool, sub.
    erewrite io_bind_run by exact Hrun.
    unfold mbind, io_bind, IO.bind, write_file, print, print_all, w1. simpl.
    by rewrite <- !app_assoc.
Qed.

Lemma rewrite_scripts_read_transform_write_witness :
  exists out log,
    FixInlineSchemas.main
      (World {[ py "server.js" := py "inputSchema: MapSiteSchema" ]} [] [])
    = (Done tt,
       World (<[py "server.js" :=
                  FixInlineSchemas.fix_content
                    (py "inputSchema: MapSiteSchema")]>
                {[ py "server.js" := py "inputSchema: MapSiteSchema" ]})
             [FixInlineSchemas.confirmation]
             [OpenRead (py "server.js"); OpenWrite (py "server.js")])
    /\ FixTools.main [py "fix-tools.py"; py "server.js"]
         (World {[ py "server.js" := py "inputSchema: MapSiteSchema" ]}
                [] [])
       = (Done tt,
          World (<[py "server.js" := out]>
                   {[ py "server.js" := py "inputSchema: MapSiteSchema" ]})
                (log ++ [FixTools.completed])
                [OpenRead (py "server.js"); OpenWrite (py "server.js")]).
Proof.
  destruct (rewrite_scripts_read_transform_write
              (World {[ py "server.js" := py "inputSchema: MapSiteSchema" ]}
                     [] [])
              (py "inputSchema: MapSiteSchema")
              (py "inputSchema: MapSiteSchema")
              (py "fix-tools.py") (py "server.js"))
    as [[Hmain _] (out & log & _ & Htools)].
  - apply lookup_singleton_eq.
  - apply lookup_singleton_eq.
  - exists out, log. split; [exact Hmain|exact Htools].
Defined.

(** ** The URL safety classifier *)

Section Classifier.

Import UrlSafety.
Local Open Scope Z_scope.

Lemma family_eqb_eq f g : family_eqb f g = true <-> f = g.
Proof. destruct f, g; simpl; split; congruence. Qed.

(** Agreeing on the leading bits is lying in the block of the range. *)
Lemma same_prefix_iff v b h :
  0 <= h ->
  Z.shiftr v h = Z.shiftr b h
  <-> b / 2 ^ h * 2 ^ h <= v < b / 2 ^ h * 2 ^ h + 2 ^ h.
Proof.
  intros Hh. rewrite !Z.shiftr_div_pow2 by done.
  assert (Hp : 0 < 2 ^ h) by (apply Z.pow_pos_nonneg; lia).
  set (p := 2 ^ h) in *. set (q := b / p). split.
  - intros Hq. pose proof (Z.div_mod v p ltac:(lia)) as Hv.
    pose proof (Z.mod_pos_bound v p Hp) as Hm. rewrite Hq in Hv. nia.
  - intros [Hlo Hhi]. symmetry.
    apply (Z.div_unique_pos v p q (v - q * p)); lia.
Qed.

Lemma range_matches_iff r a :
  range_prefix r <= family_bits (range_family r) ->
  range_matches r a = true <-> falls_within a r.
Proof.
  intros Hp. unfold range_matches, falls_within, network_start.
  rewrite andb_true_iff, family_eqb_eq, Z.eqb_eq.
  rewrite same_prefix_iff by (unfold host_bits; lia).
  split; intros [Hf Hr]; by split.
Qed.

Lemma required_ranges_well_formed :
  Forall well_formed_range required_ranges.
Proof.
  unfold required_ranges, well_formed_range, ipv4.
  repeat (constructor; [simpl; lia|]). constructor.
Qed.

Lemma Classify_unparsed cfg s :
  parse_url s = None -> Classify cfg s = Verdict true parse_error.
Proof. intros H. unfold Classify. by rewrite H. Qed.

(** C1: for every URL string, Classify evaluates its rules in the fixed
    priority order parse, hostname blocklist, IP-literal range match,
    scheme check, default-safe: the reason of the verdict is that of the
    first rule in this order whose own condition holds, so exactly one
    reason comes with a verdict, and the verdict blocks unless the reason
    is safe.  In particular a URL whose host is on the hostname blocklist
    gets the reason blocked-hostname, whatever its address and scheme. *)
Theorem Classify_priority_order (cfg : Config) (urlString : str) :
  find (applies cfg (parse_url urlString)) priority
  = Some (reason (Classify cfg urlString))
  /\ blocked (Classify cfg urlString)
     = negb (reason_eqb (reason (Classify cfg urlString)) safe)
  /\ (forall u,
        parse_url urlString = Some u ->
        on_blocklist cfg (host u) = true ->
        Classify cfg urlString = Verdict true blocked_hostname).
Proof.
  unfold Classify, classify_url, priority.
  destruct (parse_url urlString) as [u|]; cbn [find applies].
  - destruct (on_blocklist cfg (host u)) eqn:Hb;
      destruct (literal_blocked cfg u) eqn:Hl;
      destruct (scheme_allowed (scheme u)) eqn:Hs; cbn;
      repeat split; try done; intros u' [= <-] H'; congruence.
  - repeat split; done.
Qed.

Lemma Classify_priority_order_witness :
  Classify {| ranges := required_ranges;
              hostname_blocklist := [py "8.8.8.8"] |}
           (py "https://8.8.8.8/")
  = Verdict true blocked_hostname.
Proof.
  destruct (Classify_priority_order
              {| ranges := required_ranges;
                 hostname_blocklist := [py "8.8.8.8"] |}
              (py "https://8.8.8.8/")) as (_ & _ & Hfirst).
  apply (Hfirst {| scheme := py "https"; host := py "8.8.8.8";
                   bracketed := false; port := None; tail := py "/" |}).
  - vm_compute. reflexivity.
  - vm_compute. reflexivity.
Defined.

(** C3: IsBlockedAddress holds of a well-formed address exactly when the
    address falls within some range of the configured table that has its
    family; a range never matches an address of the other family; and the
    configured table holds 10.0.0.0/8, 172.16.0.0/12, 192.168.0.0/16,
    127.0.0.0/8, 169.254.0.0/16, ::1/128, fc00::/7 and fe80::/10. *)
Theorem IsBlockedAddress_iff (table : list NetworkRange) (a : address) :
  well_formed a ->
  Forall well_formed_range table ->
  (IsBlockedAddress table a = true
   <-> exists r, In r table /\ falls_within a r)
  /\ (forall r, range_family r <> addr_family a ->
                range_matches r a = false /\ ~ falls_within a r)
  /\ ranges default_config
     = [ Range IPv4 (ipv4 10 0 0 0) 8; Range IPv4 (ipv4 172 16 0 0) 12;
         Range IPv4 (ipv4 192 168 0 0) 16; Range IPv4 (ipv4 127 0 0 0) 8;
         Range IPv4 (ipv4 169 254 0 0) 16; Range IPv6 1 128;
         Range IPv6 (0xfc00 * 2 ^ 112) 7; Range IPv6 (0xfe80 * 2 ^ 112) 10 ]
  /\ Forall well_formed_range (ranges default_config).
Proof.
  intros _ Htable. repeat split.
  - unfold IsBlockedAddress. rewrite existsb_exists.
    intros (r & Hin & Hm). exists r. split; [done|].
    apply range_matches_iff; [|done].
    rewrite Forall_forall in Htable.
    apply list_elem_of_In, Htable in Hin. unfold well_formed_range in Hin.
    lia.
  - intros (r & Hin & Hm). unfold IsBlockedAddress. rewrite existsb_exists.
    exists r. split; [done|]. apply range_matches_iff; [|done].
    rewrite Forall_forall in Htable.
    apply list_elem_of_In, Htable in Hin. unfold well_formed_range in Hin.
    lia.
  - unfold range_matches.
    destruct (family_eqb (range_family r) (addr_family a)) eqn:E; [|done].
    by apply family_eqb_eq in E.
  - intros [Hf _]. congruence.
  - apply required_ranges_well_formed.
Qed.

Lemma IsBlockedAddress_iff_witness :
  IsBlockedAddress required_ranges (Address IPv4 (ipv4 169 254 169 254))
  = true
  <-> exists r, In r required_ranges
                /\ falls_within (Address IPv4 (ipv4 169 254 169 254)) r.
Proof.
  apply (IsBlockedAddress_iff required_ranges
           (Address IPv4 (ipv4 169 254 169 254))).
  - unfold well_formed, ipv4. simpl. lia.
  - unfold required_ranges, well_formed_range, ipv4.
    repeat (constructor; [simpl; lia|]). constructor.
Defined.

(** C4: on the seed inputs of the specification Classify returns the
    verdicts given there: [http://localhost/] is blocked with reason
    blocked-hostname, [http://169.254.169.254/] is blocked with reason
    private-ip, [https://example.com/] is allowed with reason safe, and
    [ftp://example.com/] is blocked with reason invalid-scheme. *)
Theorem seed_verdicts :
  Classify default_config (py "http://localhost/")
  = Verdict true blocked_hostname
  /\ Classify default_config (py "http://169.254.169.254/")
     = Verdict true private_ip
  /\ Classify default_config (py "https://example.com/")
     = Verdict false safe
  /\ Classify default_config (py "ftp://example.com/")
     = Verdict true invalid_scheme.
Proof. repeat split; vm_compute; reflexivity. Qed.

(** C6: for every input string in which the parse finds no scheme at all,
    Classify returns the verdict with reason parse-error, not the one with
    reason invalid-scheme. *)
Theorem no_scheme_is_parse_error (cfg : Config) (urlString : str) :
  split_scheme urlString = None ->
  Classify cfg urlString = Verdict true parse_error
  /\ reason (Classify cfg urlString) <> invalid_scheme.
Proof.
  intros H.
  assert (Hp : parse_url urlString = None)
    by (unfold parse_url; by rewrite H).
  rewrite (Classify_unparsed _ _ Hp). by split.
Qed.

Lemma no_scheme_is_parse_error_witness :
  split_scheme (py "example.com/index.html") = None
  /\ Classify default_config (py "example.com/index.html")
     = Verdict true parse_error
  /\ reason (Classify default_config (py "example.com/index.html"))
     <> invalid_scheme.
Proof.
  split.
  - vm_compute. reflexivity.
  - apply (no_scheme_is_parse_error default_config
             (py "example.com/index.html")).
    vm_compute. reflexivity.
Defined.

End Classifier.

(* ===================================================================== *)
(** * Part III: further properties of the scripts                         *)
(* ===================================================================== *)

(** ** Texts laid out as gaps and blocks *)

Section TextBlocks.

Implicit Types (p q s t u y g m old new last : str) (c : char).

Lemma text_eqb_eq p q : text_eqb p q = true <-> p = q.
Proof.
  unfold text_eqb. rewrite andb_true_iff, Nat.eqb_eq. split.
  - intros [Hlen [t ->]%starts_with_inv].
    rewrite length_app in Hlen. destruct t; [by rewrite app_nil_r|].
    simpl in Hlen. lia.
  - intros ->. split; [done|]. rewrite <- (app_nil_r q) at 2.
    apply starts_with_app.
Qed.

Lemma comparable_sym p q : comparable p q = comparable q p.
Proof. unfold comparable. apply orb_comm. Qed.

(** A text that starts [u ++ x] starts within [u] or reaches into [x]. *)
Lemma starts_with_split q u x :
  starts_with q (u ++ x) = true ->
  starts_with q u = true
  \/ exists y, y <> [] /\ q = u ++ y /\ starts_with y x = true.
Proof.
  revert q. induction u as [|c u IH]; intros q H.
  - destruct q as [|a q]; [by left|]. right. by exists (a :: q).
  - destruct q as [|a q]; [by left|]. simpl in H.
    apply andb_true_iff in H as [Hac H]. apply N.eqb_eq in Hac as ->.
    destruct (IH _ H) as [Hu|(y & Hy & -> & Hyx)].
    + left. simpl. by rewrite N.eqb_refl.
    + right. by exists y.
Qed.

Lemma tails_app_r u y : y <> [] -> In y (tails (u ++ y)).
Proof.
  intros Hy. induction u as [|c u IH]; simpl.
  - by apply tails_self.
  - by right.
Qed.

Lemma tails_tl y q : In y (tails (List.tl q)) -> In y (tails q).
Proof. destruct q; simpl; [done|]. by right. Qed.

End TextBlocks.

Section ReplaceBlocks.

Variables old new : str.
Hypothesis old_nonempty : old <> [].

Implicit Types (s t u y g m last : str) (c : char).

(** The scan copies a gap in which the pattern does not occur, when no
    proper suffix of the pattern starts the text after the gap. *)
Lemma replace_gap g x :
  contains old g = false ->
  (forall y, In y (tails (List.tl old)) -> starts_with y x = false) ->
  replace old new (g ++ x) = g ++ replace old new x.
Proof using old_nonempty.
  intros Hg Hx. induction g as [|c g IH]; [done|].
  simpl in Hg. apply orb_false_iff in Hg as [Hc Hg].
  change ((c :: g) ++ x) with (c :: g ++ x).
  rewrite replace_skip; [by rewrite IH|done|].
  destruct (starts_with old (c :: g ++ x)) eqn:E; [|done].
  apply (starts_with_split old (c :: g) x) in E
    as [E|(y & Hy & Hold & Hyx)]; [congruence|].
  rewrite Hx in Hyx; [done|].
  rewrite Hold. simpl. by apply tails_app_r.
Qed.

(** The scan copies a block none of whose suffixes is comparable with the
    pattern. *)
Lemma replace_block m x :
  forallb (fun n' => negb (comparable n' old)) (tails m) = true ->
  replace old new (m ++ x) = m ++ replace old new x.
Proof using old_nonempty.
  induction m as [|c m IH]; intros Hm; [done|].
  simpl in Hm. apply andb_true_iff in Hm as [Hc Hm].
  change ((c :: m) ++ x) with (c :: m ++ x).
  rewrite replace_skip; [by rewrite IH|done|].
  destruct (starts_with old (c :: m ++ x)) eqn:E; [|done].
  apply (starts_with_app_r old (c :: m) x) in E.
  rewrite comparable_sym in E. by rewrite E in Hc.
Qed.

(** One pass over a text of gaps and blocks: the blocks equal to the
    pattern become the replacement text, everything else stays. *)
Lemma replace_render blocks last :
  Forall (fun '(g, m) =>
            contains old g = false
            /\ FixInlineSchemas.ok_block old m = true) blocks ->
  contains old last = false ->
  replace old new (render blocks last)
  = render (List.map (fun '(g, m) =>
                        (g, if text_eqb m old then new else m)) blocks)
           last.
Proof using old_nonempty.
  intros Hblocks Hlast.
  induction Hblocks as [|[g m] blocks [Hg Hm] _ IH]; simpl.
  - by apply replace_absent.
  - unfold FixInlineSchemas.ok_block in Hm.
    rewrite replace_gap; [f_equal|done|].
    + destruct (text_eqb m old) eqn:Heq.
      * apply text_eqb_eq in Heq as ->. by rewrite replace_hit, IH.
      * simpl in Hm. apply andb_true_iff in Hm as [_ Hm].
        by rewrite replace_block, IH.
    + intros y Hy.
      destruct (starts_with y (m ++ render blocks last)) eqn:E; [|done].
      apply starts_with_app_r in E.
      apply orb_true_iff in Hm as [Hm|Hm].
      * apply andb_true_iff in Hm as [->%text_eqb_eq Hb].
        unfold border_free in Hb. rewrite forallb_forall in Hb.
        apply Hb in Hy. by rewrite E in Hy.
      * apply andb_true_iff in Hm as [Hm _].
        rewrite forallb_forall in Hm.
        apply tails_tl, Hm in Hy. by rewrite E in Hy.
Qed.

(** A pass does not make a text shorter when the replacement text is at
    least as long as the pattern. *)
Lemma replace_length s :
  (length old <= length new)%nat ->
  (length s <= length (replace old new s))%nat.
Proof using old_nonempty.
  intros Hlen.
  induction s as [| c s Hc IH | t IH] using (scan_ind old old_nonempty).
  - by rewrite replace_nil.
  - rewrite replace_skip by done. simpl. lia.
  - rewrite replace_hit by done. rewrite !length_app. lia.
Qed.

End ReplaceBlocks.

(** ** fix-inline-schemas.py on texts of gaps and schema references *)

Section InlineSchemas.

Import FixInlineSchemas.

Implicit Types (s g m old new last content : str) (w : world).

Lemma render_map_id (blocks : list (str * str)) last :
  render (List.map (fun '(g, m) => (g, m)) blocks) last = render blocks last.
Proof. induction blocks as [|[g m] blocks IH]; simpl; [done|]. by rewrite IH. Qed.

(** The whole loop over a text of gaps and blocks: every block goes
    through the substitutions, the gaps and the last stretch stay. *)
Lemma replace_all_render (B : list str) rs :
  (forall old new, In (old, new) rs ->
     old <> [] /\ In new B /\ forall m, In m B -> ok_block old m = true) ->
  forall blocks last,
    Forall (fun '(g, m) =>
              In m B
              /\ forall old new, In (old, new) rs -> contains old g = false)
           blocks ->
    (forall old new, In (old, new) rs -> contains old last = false) ->
    replace_all rs (render blocks last)
    = render (List.map (fun '(g, m) => (g, subst_block rs m)) blocks) last.
Proof.
  induction rs as [|[old new] rs IH]; intros Hrs blocks last Hb Hl; simpl.
  - by rewrite render_map_id.
  - destruct (Hrs old new) as (Hne & HnewB & Hok); [by left|].
    rewrite (replace_render old new Hne).
    + rewrite IH.
      * rewrite List.map_map. f_equal. apply List.map_ext.
        by intros [g m].
      * intros o n Hin. apply (Hrs o n). by right.
      * apply List.Forall_map. eapply Forall_impl; [exact Hb|].
        intros [g m] [HmB Hg]. split.
        -- by destruct (text_eqb m old).
        -- intros o n Hin. apply (Hg o n). by right.
      * intros o n Hin. apply (Hl o n). by right.
    + eapply Forall_impl; [exact Hb|]. intros [g m] [HmB Hg]. split.
      * apply (Hg old new). by left.
      * by apply Hok.
    + apply (Hl old new). by left.
Qed.

Lemma rewrites_well_separated : well_separated rewrites = true.
Proof. vm_compute. reflexivity. Qed.

Lemma well_separated_in old new :
  In (old, new) rewrites ->
  old <> []
  /\ In new (block_texts rewrites)
  /\ (forall m, In m (block_texts rewrites) -> ok_block old m = true)
  /\ subst_block rewrites old = new.
Proof.
  intros Hin. pose proof rewrites_well_separated as H.
  unfold well_separated in H. rewrite forallb_forall in H.
  specialize (H _ Hin). cbv beta iota in H.
  apply andb_true_iff in H as [H Hsub].
  apply andb_true_iff in H as [Hne Hok].
  repeat split.
  - by destruct old.
  - unfold block_texts. apply in_or_app. right.
    by apply (in_map snd _ (old, new)).
  - intros m Hm. rewrite forallb_forall in Hok. by apply Hok.
  - by apply text_eqb_eq.
Qed.

Lemma rewrites_of_entry name def :
  In (name, def) schema_replacements ->
  In (old_pattern name, new_pattern def) rewrites.
Proof.
  intros Hin. unfold rewrites.
  by apply (in_map (fun '(schema_name, inline_def) =>
                      (old_pattern schema_name, new_pattern inline_def))
                   _ (name, def)).
Qed.

Lemma not_occurs_contains (q s : str) : ~ occurs q s -> contains q s = false.
Proof.
  intros H. destruct (contains q s) eqn:E; [|done].
  by apply contains_iff in E.
Qed.

Lemma replace_all_length rs s :
  Forall (fun '(old, new) =>
            old <> [] /\ (length old <= length new)%nat) rs ->
  (length s <= length (replace_all rs s))%nat.
Proof.
  intros H. revert s.
  induction H as [|[old new] rs [Hne Hlen] _ IH]; intros s; simpl; [done|].
  etrans; [|apply IH]. by apply replace_length.
Qed.

End InlineSchemas.

Section InlineSchemasExtras.

Import FixInlineSchemas.

Lemma rewrites_inv old new :
  In (old, new) rewrites ->
  exists name def,
    In (name, def) schema_replacements
    /\ old = old_pattern name /\ new = new_pattern def.
Proof.
  unfold rewrites. intros ([name def] & [= <- <-] & Hin)%in_map_iff.
  by exists name, def.
Qed.

Lemma reference_free_contains s old new :
  reference_free s = true -> In (old, new) rewrites ->
  contains old s = false.
Proof.
  intros Hfree (name & def & Hin & -> & _)%rewrites_inv.
  unfold reference_free in Hfree. rewrite forallb_forall in Hfree.
  specialize (Hfree _ Hin). cbv beta iota in Hfree.
  by apply negb_true_iff in Hfree.
Qed.

Lemma reference_free_fixed s :
  reference_free s = true -> fix_content s = s.
Proof.
  intros Hfree. apply replace_all_fixed. intros q n Hin. split.
  - by apply (rewrites_nonempty q n).
  - by apply (reference_free_contains s q n).
Qed.

End InlineSchemasExtras.

(** X1: fix-inline-schemas.py substitutes all references at once.  For a
    text made of gaps, each followed by [inputSchema: <SchemaName>] for a
    schema name of the table, and a last stretch, where no gap and not the
    last stretch contains any of the nine references, the loop returns the
    same gaps and last stretch with each reference turned into
    [inputSchema: <inline definition>] of its own schema. *)
Theorem fix_content_substitutes
    (refs : list (str * (str * str))) (last : str) :
  Forall (fun '(gap, entry) =>
            In entry FixInlineSchemas.schema_replacements
            /\ FixInlineSchemas.reference_free gap = true) refs ->
  FixInlineSchemas.reference_free last = true ->
  FixInlineSchemas.fix_content
    (FixInlineSchemas.with_references
       (fun '(schema_name, _) => FixInlineSchemas.old_pattern schema_name)
       refs last)
  = FixInlineSchemas.with_references
      (fun '(_, inline_def) => FixInlineSchemas.new_pattern inline_def)
      refs last.
Proof.
  intros Hrefs Hlast.
  unfold FixInlineSchemas.fix_content, FixInlineSchemas.with_references.
  rewrite (replace_all_render
             (FixInlineSchemas.block_texts FixInlineSchemas.rewrites)).
  - rewrite List.map_map. f_equal. apply List.map_ext_in.
    intros [gap [name def]] Hin. rewrite Forall_forall in Hrefs.
    apply list_elem_of_In, Hrefs in Hin as [Hentry _].
    apply rewrites_of_entry, well_separated_in in Hentry
      as (_ & _ & _ & ->). done.
  - intros old new Hin.
    destruct (well_separated_in old new Hin) as (Hne & HB & Hok & _).
    done.
  - apply List.Forall_map. eapply Forall_impl; [exact Hrefs|].
    intros [gap [name def]] [Hentry Hgap]. split.
    + apply in_or_app. left.
      apply (in_map fst _ (FixInlineSchemas.old_pattern name,
                           FixInlineSchemas.new_pattern def)).
      by apply rewrites_of_entry.
    + intros old new Hin. by apply (reference_free_contains gap old new).
  - intros old new Hin. by apply (reference_free_contains last old new).
Qed.

Lemma fix_content_substitutes_witness :
  FixInlineSchemas.fix_content
    (py "a: { inputSchema: MapSiteSchema }, b: { inputSchema: ExtractMetadataSchema }")
  = py "a: { inputSchema: {
    url: z.string().url(),
    include_sitemap: z.boolean().optional(),
    max_urls: z.number().min(1).max(10000).optional(),
    group_by_path: z.boolean().optional(),
    include_metadata: z.boolean().optional()
  } }, b: { inputSchema: {
    url: z.string().url()
  } }".
Proof.
  apply (fix_content_substitutes
           [ (py "a: { ", nth 4 FixInlineSchemas.schema_replacements ([], []));
             (py " }, b: { ",
              nth 0 FixInlineSchemas.schema_replacements ([], [])) ]
           (py " }")).
  - repeat constructor; vm_compute; tauto.
  - vm_compute. reflexivity.
Defined.

Section PassOrder.

Import FixInlineSchemas.

(** A text that is no pattern goes through the substitutions unchanged. *)
Lemma subst_block_other rs m :
  ~ In m (List.map fst rs) -> subst_block rs m = m.
Proof.
  revert m. induction rs as [|[old new] rs IH]; intros m Hm; simpl; [done|].
  destruct (text_eqb m old) eqn:E.
  - apply text_eqb_eq in E as ->. exfalso. apply Hm. by left.
  - apply IH. intros Hin. apply Hm. by right.
Qed.

(** With distinct patterns, none of which is a replacement text, each
    pattern goes to its own replacement text. *)
Lemma subst_block_own rs old new :
  NoDup (List.map fst rs) ->
  (forall n, In n (List.map snd rs) -> ~ In n (List.map fst rs)) ->
  In (old, new) rs ->
  subst_block rs old = new.
Proof.
  induction rs as [|[o n] rs IH]; intros Hnd Hdis Hin; [done|].
  simpl in Hnd. apply NoDup_cons in Hnd as [Ho Hnd]. simpl.
  destruct (text_eqb old o) eqn:E.
  - apply text_eqb_eq in E. subst o.
    assert (new = n) as ->.
    { destruct Hin as [[= ->]|Hin]; [done|]. exfalso. apply Ho.
      apply list_elem_of_In. by apply (in_map fst _ (old, new)). }
    apply subst_block_other. intros Hn.
    apply (Hdis n); [by left|by right].
  - apply IH; [done| |].
    + intros n' Hn' Hf. apply (Hdis n'); by right.
    + destruct Hin as [[= -> ->]|Hin]; [|done].
      assert (text_eqb old old = true) as Hoo by by apply text_eqb_eq.
      congruence.
Qed.

Lemma rewrites_distinct :
  NoDup (List.map fst rewrites)
  /\ forall n, In n (List.map snd rewrites) -> ~ In n (List.map fst rewrites).
Proof.
  split.
  - apply (bool_decide_eq_true_1 (NoDup (List.map fst rewrites))).
    vm_compute. reflexivity.
  - assert (H : forallb (fun n =>
                  negb (existsb (text_eqb n) (List.map fst rewrites)))
                  (List.map snd rewrites) = true)
      by (vm_compute; reflexivity).
    rewrite forallb_forall in H. intros n Hn Hf.
    specialize (H n Hn). apply negb_true_iff in H.
    assert (existsb (text_eqb n) (List.map fst rewrites) = true) as He.
    { apply existsb_exists. exists n. split; [done|by apply text_eqb_eq]. }
    congruence.
Qed.

End PassOrder.

(** X2: the result of fix-inline-schemas.py on such a text does not depend
    on the order in which the nine entries are gone through: the passes of
    the table taken in any order turn every reference into the inline
    definition of its own schema and leave the rest of the text as it
    is. *)
Theorem fix_content_any_order
    (rs : list (str * str)) (refs : list (str * (str * str))) (last : str) :
  Permutation rs FixInlineSchemas.rewrites ->
  Forall (fun '(gap, entry) =>
            In entry FixInlineSchemas.schema_replacements
            /\ FixInlineSchemas.reference_free gap = true) refs ->
  FixInlineSchemas.reference_free last = true ->
  FixInlineSchemas.replace_all rs
    (FixInlineSchemas.with_references
       (fun '(schema_name, _) => FixInlineSchemas.old_pattern schema_name)
       refs last)
  = FixInlineSchemas.with_references
      (fun '(_, inline_def) => FixInlineSchemas.new_pattern inline_def)
      refs last.
Proof.
  intros Hperm Hrefs Hlast.
  assert (Hin_rs : forall old new,
            In (old, new) rs -> In (old, new) FixInlineSchemas.rewrites).
  { intros old new. apply Permutation_in, Hperm. }
  assert (Hin_rw : forall old new,
            In (old, new) FixInlineSchemas.rewrites -> In (old, new) rs).
  { intros old new. apply Permutation_in. by apply Permutation_sym. }
  destruct rewrites_distinct as [Hnd Hdis].
  unfold FixInlineSchemas.with_references.
  rewrite (replace_all_render
             (FixInlineSchemas.block_texts FixInlineSchemas.rewrites)).
  - rewrite List.map_map. f_equal. apply List.map_ext_in.
    intros [gap [name def]] Hin. rewrite Forall_forall in Hrefs.
    apply list_elem_of_In, Hrefs in Hin as [Hentry _].
    f_equal. apply subst_block_own.
    + apply (NoDup_Permutation_proper _ _ (Permutation_map fst Hperm)).
      exact Hnd.
    + intros n Hn Hf. apply (Hdis n).
      * eapply Permutation_in; [|exact Hn]. by apply Permutation_map.
      * eapply Permutation_in; [|exact Hf]. by apply Permutation_map.
    + by apply Hin_rw, rewrites_of_entry.
  - intros old new Hin%Hin_rs.
    destruct (well_separated_in old new Hin) as (Hne & HB & Hok & _).
    done.
  - apply List.Forall_map. eapply Forall_impl; [exact Hrefs|].
    intros [gap [name def]] [Hentry Hgap]. split.
    + apply in_or_app. left.
      apply (in_map fst _ (FixInlineSchemas.old_pattern name,
                           FixInlineSchemas.new_pattern def)).
      by apply rewrites_of_entry.
    + intros old new Hin%Hin_rs.
      by apply (reference_free_contains gap old new).
  - intros old new Hin%Hin_rs.
    by apply (reference_free_contains last old new).
Qed.

Lemma fix_content_any_order_witness :
  FixInlineSchemas.replace_all (rev FixInlineSchemas.rewrites)
    (py "x = { inputSchema: AnalyzeContentSchema }; y = { inputSchema: ExtractMetadataSchema };")
  = py "x = { inputSchema: {
    text: z.string(),
    options: z.object({}).optional()
  } }; y = { inputSchema: {
    url: z.string().url()
  } };".
Proof.
  apply (fix_content_any_order (rev FixInlineSchemas.rewrites)
           [ (py "x = { ",
              nth 8 FixInlineSchemas.schema_replacements ([], []));
             (py " }; y = { ",
              nth 0 FixInlineSchemas.schema_replacements ([], [])) ]
           (py " };")).
  - apply Permutation_sym, Permutation_rev.
  - repeat constructor; vm_compute; tauto.
  - vm_compute. reflexivity.
Defined.

Lemma fix_inline_schemas_run w content :
  files w !! FixInlineSchemas.server_js = Some content ->
  FixInlineSchemas.main w
  = (Done tt,
     World (<[FixInlineSchemas.server_js :=
                FixInlineSchemas.fix_content content]> (files w))
           (stdout w ++ [FixInlineSchemas.confirmation])
           (fileops w ++ [OpenRead FixInlineSchemas.server_js;
                          OpenWrite FixInlineSchemas.server_js])).
Proof.
  intros Hserver. unfold FixInlineSchemas.main.
  erewrite io_bind_run
    by (unfold read_file; rewrite Hserver; reflexivity).
  unfold mbind, io_bind, IO.bind, write_file, print. simpl.
  by rewrite <- app_assoc.
Qed.

(** X4: fix-inline-schemas.py never makes the text shorter: every inline
    definition is longer than its schema name, so the rewritten content
    has at least the length of the content read. *)
Theorem fix_content_never_shrinks (content : str) :
  (length content <= length (FixInlineSchemas.fix_content content))%nat.
Proof.
  apply replace_all_length.
  assert (H : forallb (fun '(old, new) =>
                match old with [] => false | _ :: _ => true end
                && (length old <=? length new)%nat)
                FixInlineSchemas.rewrites = true)
    by (vm_compute; reflexivity).
  rewrite forallb_forall in H. apply Forall_forall.
  intros [old new] Hin%list_elem_of_In. specialize (H _ Hin).
  cbv beta iota in H. apply andb_true_iff in H as [Hne Hlen].
  split; [by destruct old|by apply Nat.leb_le].
Qed.

(** X5: when there is no [server.js], fix-inline-schemas.py stops with
    FileNotFoundError at the read; nothing has been written or printed and
    every file is as it was. *)
Theorem fix_inline_schemas_missing_file (w : world) :
  files w !! FixInlineSchemas.server_js = None ->
  FixInlineSchemas.main w
  = (Raised (FileNotFoundError FixInlineSchemas.server_js),
     World (files w) (stdout w)
           (fileops w ++ [OpenRead FixInlineSchemas.server_js])).
Proof.
  intros Hnone. unfold FixInlineSchemas.main, mbind, io_bind, IO.bind.
  unfold read_file. by rewrite Hnone.
Qed.

Lemma fix_inline_schemas_missing_file_witness :
  FixInlineSchemas.main (World {[ py "index.js" := py "x" ]} [] [])
  = (Raised (FileNotFoundError (py "server.js")),
     World {[ py "index.js" := py "x" ]} [] [OpenRead (py "server.js")]).
Proof.
  rewrite (fix_inline_schemas_missing_file
             (World {[ py "index.js" := py "x" ]} [] [])).
  - reflexivity.
  - apply lookup_singleton_ne. vm_compute. discriminate.
Defined.

(** ** [tool_pattern] reads a call in one way only *)

Section ToolPatternExact.

Import FixTools.

Implicit Types (s a b x rest : str) (c : char) (pat : list node).

(** A stretch of the class that the text does not continue is taken
    whole, when the rest of the pattern then matches. *)
Lemma greedy_exact cls min k taken a b r :
  forallb cls a = true ->
  stops cls b ->
  (min <= length (taken ++ a))%nat ->
  k b = Some r ->
  greedy cls min k taken (a ++ b) = Some (taken ++ a, r).
Proof.
  revert taken. induction a as [|c a IH]; intros taken Ha Hb Hmin Hk.
  - rewrite app_nil_r in *. apply Nat.leb_le in Hmin.
    destruct b as [|c b]; simpl in *.
    + by rewrite Hmin, Hk.
    + by rewrite Hb, Hmin, Hk.
  - simpl in Ha. apply andb_true_iff in Ha as [Hc Ha].
    cbn [app greedy]. rewrite Hc.
    rewrite (IH (taken ++ [c])); [by rewrite <- app_assoc|done..| |done].
    by rewrite <- app_assoc.
Qed.

Lemma match_here_lit text pat x :
  match_here (Lit text :: pat) (text ++ x) = match_here pat x.
Proof.
  cbn [match_here].
  assert (strip_prefix text (text ++ x) = Some x) as ->
    by by apply strip_prefix_iff.
  done.
Qed.

Lemma match_here_rep capture cls min pat a x groups rest :
  forallb cls a = true ->
  (min <= length a)%nat ->
  stops cls x ->
  match_here pat x = Some (groups, rest) ->
  match_here (Rep capture cls min :: pat) (a ++ x)
  = Some (if capture then a :: groups else groups, rest).
Proof.
  intros Ha Hmin Hx Hk. cbn [match_here].
  by rewrite (greedy_exact cls min (match_here pat) [] a x (groups, rest)).
Qed.

(** A well-formed call is read with its own four parts as groups,
    whatever text follows it. *)
Lemma call_recognised t rest :
  well_formed_call t = true ->
  match_here tool_pattern (call_text t ++ rest)
  = Some ([call_name t; call_description t; call_schema t; call_params t],
          rest).
Proof.
  unfold well_formed_call. intros H.
  repeat match goal with
         | H : _ && _ = true |- _ => apply andb_true_iff in H as [H ?]
         end.
  repeat match goal with
         | H : nonempty _ = true |- _ => apply nonempty_iff in H
         end.
  unfold call_text, tool_pattern. rewrite <- !app_assoc.
  rewrite match_here_lit.
  apply (match_here_rep false); [done|lia|reflexivity|].
  rewrite match_here_lit.
  apply (match_here_rep true _ _ _ (call_name t));
    [done|done|reflexivity|].
  rewrite match_here_lit.
  apply (match_here_rep false); [done|lia|reflexivity|].
  rewrite match_here_lit.
  apply (match_here_rep true _ _ _ (call_description t));
    [done|done|reflexivity|].
  rewrite match_here_lit.
  apply (match_here_rep false); [done|lia|reflexivity|].
  rewrite match_here_lit.
  apply (match_here_rep true _ _ _ (call_schema t));
    [done|done|reflexivity|].
  rewrite match_here_lit.
  apply (match_here_rep false); [done|lia|reflexivity|].
  rewrite match_here_lit.
  apply (match_here_rep false); [done|lia|reflexivity|].
  rewrite match_here_lit.
  apply (match_here_rep true _ _ _ (call_params t));
    [done|lia|reflexivity|].
  rewrite match_here_lit.
  apply (match_here_rep false); [done|lia|reflexivity|].
  rewrite match_here_lit.
  apply (match_here_rep false); [done|lia|reflexivity|].
  rewrite match_here_lit.
  reflexivity.
Qed.

End ToolPatternExact.

(** ** The conversion of fix-tools.py on texts of gaps and calls *)

Section ConvertCalls.

Import FixTools.

Implicit Types (s g x y rest out last : str) (c : char) (w : world).

Lemma call_starts_with_marker s :
  starts_with_call s -> starts_with marker s = true.
Proof.
  intros (t & rest & _ & ->). unfold call_text, marker.
  rewrite <- app_assoc. apply starts_with_app.
Qed.

Lemma contains_cons (q : str) c s :
  contains q (c :: s) = starts_with q (c :: s) || contains q s.
Proof. done. Qed.

Lemma marker_border_free : border_free marker = true.
Proof. vm_compute. reflexivity. Qed.

(** The description of the conversion fixes its result. *)
Lemma converts_functional s out1 log1 :
  converts s out1 log1 ->
  forall out2 log2, converts s out2 log2 -> out1 = out2 /\ log1 = log2.
Proof.
  induction 1 as [|c s out log Hc Hconv IH|t rest out log Hwf Hconv IH];
    intros out2 log2 H2.
  - remember [] as s eqn:Hs.
    destruct H2 as [|c' s' out' log' Hc' Hconv'
                    |t' rest' out' log' Hwf' Hconv']; [done|done|].
    pose proof (call_text_length t') as Hlen.
    apply (f_equal length) in Hs. rewrite length_app in Hs.
    simpl in Hs. lia.
  - remember (c :: s) as s0 eqn:Hs.
    destruct H2 as [|c' s' out' log' Hc' Hconv'
                    |t' rest' out' log' Hwf' Hconv']; [done| |].
    + injection Hs as -> ->. by destruct (IH _ _ Hconv') as [-> ->].
    + exfalso. apply Hc. rewrite Hs. by exists t', rest'.
  - remember (call_text t ++ rest) as s eqn:Hs.
    destruct H2 as [|c' s' out' log' Hc' Hconv'
                    |t' rest' out' log' Hwf' Hconv'].
    + pose proof (call_text_length t) as Hlen.
      apply (f_equal length) in Hs. rewrite length_app in Hs.
      simpl in Hs. lia.
    + exfalso. apply Hc'. rewrite Hs. by exists t, rest.
    + pose proof (call_recognised t rest Hwf) as H1.
      pose proof (call_recognised t' rest' Hwf') as H1'.
      rewrite <- Hs, H1' in H1. injection H1 as Hn Hd _ _ Hr. subst rest'.
      destruct (IH _ _ Hconv') as [-> ->].
      by rewrite Hn, Hd.
Qed.

(** A text without the marker is kept as it is. *)
Lemma converts_marker_free s :
  contains marker s = false -> converts s s [].
Proof.
  induction s as [|c s IH]; intros H; [constructor|].
  rewrite contains_cons in H. apply orb_false_iff in H as [Hc Hs].
  constructor; [|by apply IH].
  intros Hcall%call_starts_with_marker. congruence.
Qed.

(** A gap without the marker is kept, when no proper suffix of the marker
    starts the text after it. *)
Lemma converts_gap g x out log :
  contains marker g = false ->
  (forall y, In y (tails (List.tl marker)) -> starts_with y x = false) ->
  converts x out log ->
  converts (g ++ x) (g ++ out) log.
Proof.
  intros Hg Hx Hconv. induction g as [|c g IH]; [done|].
  rewrite contains_cons in Hg. apply orb_false_iff in Hg as [Hc Hg].
  change (converts (c :: g ++ x) (c :: g ++ out) log).
  constructor; [|by apply IH].
  intros Hcall%call_starts_with_marker.
  apply (starts_with_split marker (c :: g) x) in Hcall
    as [E|(y & Hy & Hm & Hyx)]; [congruence|].
  rewrite Hx in Hyx; [done|].
  rewrite Hm. simpl. by apply tails_app_r.
Qed.

(** The conversion of a text of gaps and calls, as described. *)
Lemma converts_calls (calls : list (str * tool_call)) last :
  Forall (fun '(gap, t) =>
            contains marker gap = false /\ well_formed_call t = true)
         calls ->
  contains marker last = false ->
  converts (with_calls call_text calls last)
           (with_calls converted_call calls last)
           (List.map (fun '(_, t) => report_line t) calls).
Proof.
  intros Hcalls Hlast. unfold with_calls.
  induction Hcalls as [|[gap t] calls [Hgap Hwf] _ IH]; simpl.
  - by apply converts_marker_free.
  - apply converts_gap; [done| |by constructor].
    intros y Hy.
    destruct (starts_with y
                (call_text t
                 ++ render (List.map (fun '(gap0, t0) =>
                                        (gap0, call_text t0)) calls) last))
      eqn:E; [|done].
    unfold call_text in E. rewrite <- app_assoc in E.
    apply starts_with_app_r in E.
    pose proof marker_border_free as Hb. unfold border_free in Hb.
    rewrite forallb_forall in Hb. apply Hb in Hy.
    unfold marker in Hy. by rewrite E in Hy.
Qed.

Lemma fix_tools_run argv w content :
  length argv = 2%nat ->
  files w !! nth 1 argv [] = Some content ->
  exists out log,
    converts content out log
    /\ main argv w
       = (Done tt,
          World (<[nth 1 argv [] := out]> (files w))
                (stdout w ++ log ++ [completed])
                (fileops w ++ [OpenRead (nth 1 argv []);
                               OpenWrite (nth 1 argv [])])).
Proof.
  intros Hlen Hfile.
  set (path := nth 1 argv []) in *.
  set (w1 := World (files w) (stdout w) (fileops w ++ [OpenRead path])).
  destruct (sub_from_converts (length content) content w1)
    as (out & log & Hconv & Hrun); [done|].
  exists out, log. split; [done|].
  unfold main. rewrite Hlen. cbn [Nat.eqb negb]. fold path.
  erewrite io_bind_run
    by (unfold read_file; rewrite Hfile; reflexivity).
  fold w1. unfold convert_tool_to_register_tool, sub.
  erewrite io_bind_run by exact Hrun.
  unfold mbind, io_bind, IO.bind, write_file, print, print_all, w1. simpl.
  by rewrite <- !app_assoc.
Qed.

End ConvertCalls.

(** X7: the pattern of fix-tools.py matches at the start of a text exactly
    when the text begins with a well-formed [server.tool] call (the
    literal, a quoted non-empty name, a quoted non-empty description, a
    braced non-empty schema, [async], a parenthesised parameter list, the
    arrow and an opening brace, with white space allowed between them);
    the match ends right after the opening brace and the four groups are
    the name, the description, the schema and the parameters of that
    call. *)
Theorem tool_pattern_reads_calls (s rest : str) (groups : list str) :
  match_here FixTools.tool_pattern s = Some (groups, rest)
  <-> exists t,
        FixTools.well_formed_call t = true
        /\ s = FixTools.call_text t ++ rest
        /\ groups = [FixTools.call_name t; FixTools.call_description t;
                     FixTools.call_schema t; FixTools.call_params t].
Proof.
  split.
  - apply match_is_call.
  - intros (t & Hwf & -> & ->). by apply call_recognised.
Qed.

(** X8: the description of the conversion fixes what
    [convert_tool_to_register_tool] returns: whenever a text is described
    as converted to [out] with the reports [log] (calls replaced from the
    left, every other character kept), the function returns [out] and
    prints exactly [log]. *)
Theorem convert_tool_to_register_tool_unique
    (content out : str) (log : list str) (w : world) :
  FixTools.converts content out log ->
  FixTools.convert_tool_to_register_tool content w
  = (Done out, print_all log w).
Proof.
  intros Hconv.
  destruct (sub_from_converts (length content) content w)
    as (out' & log' & Hconv' & Hrun); [done|].
  destruct (converts_functional _ _ _ Hconv _ _ Hconv') as [-> ->].
  exact Hrun.
Qed.

Lemma convert_tool_to_register_tool_unique_witness :
  FixTools.convert_tool_to_register_tool (py "ab") (World ∅ [] [])
  = (Done (py "ab"), print_all [] (World ∅ [] [])).
Proof.
  apply (convert_tool_to_register_tool_unique
           (py "ab") (py "ab") [] (World ∅ [] [])).
  apply converts_marker_free. vm_compute. reflexivity.
Defined.

(** X9: on a text made of gaps, each followed by a well-formed
    [server.tool] call, and a last stretch, where no gap and not the last
    stretch contains [server.tool(], the conversion keeps the gaps and the
    last stretch, turns every call into the [server.registerTool] call
    written out below, with the name and description of the call and the
    two fixed TODO texts, and prints one report line per call, in the
    order of the calls. *)
Theorem convert_tool_to_register_tool_calls
    (calls : list (str * FixTools.tool_call)) (last : str) (w : world) :
  Forall (fun '(gap, t) =>
            contains (py "server.tool(") gap = false
            /\ FixTools.well_formed_call t = true) calls ->
  contains (py "server.tool(") last = false ->
  FixTools.convert_tool_to_register_tool
    (FixTools.with_calls FixTools.call_text calls last) w
  = (Done
       (FixTools.with_calls
          (fun t =>
             py "server.registerTool(" ++ [dquote] ++ FixTools.call_name t ++ [dquote]
             ++ py ", {
  description: " ++ [dquote] ++ FixTools.call_description t ++ [dquote] ++ py ",
  inputSchema: {
    // TODO: Define proper Zod schemas here
  }
}, async (/* TODO: Add destructured parameters */) => {")
          calls last),
     print_all
       (List.map (fun '(_, t) =>
                    py "Converting tool: " ++ FixTools.call_name t) calls)
       w).
Proof.
  intros Hcalls Hlast.
  pose proof (converts_calls calls last Hcalls Hlast) as Hconv.
  destruct (sub_from_converts
              (length (FixTools.with_calls FixTools.call_text calls last))
              (FixTools.with_calls FixTools.call_text calls last) w)
    as (out' & log' & Hconv' & Hrun); [done|].
  destruct (converts_functional _ _ _ Hconv _ _ Hconv') as [<- <-].
  exact Hrun.
Qed.

Lemma convert_tool_to_register_tool_calls_witness :
  FixTools.convert_tool_to_register_tool
    (FixTools.with_calls FixTools.call_text
       [ (py "// tools ",
          {| FixTools.call_name := py "fetch";
             FixTools.call_description := py "Fetch a url";
             FixTools.call_schema := py " url: z.string() ";
             FixTools.call_params := py "{ url }";
             FixTools.sp1 := []; FixTools.sp2 := py " ";
             FixTools.sp3 := py " "; FixTools.sp4 := py " ";
             FixTools.sp5 := py " "; FixTools.sp6 := py " ";
             FixTools.sp7 := py " " |}) ]
       (py " return 1; });"))
    (World ∅ [] [])
  = (Done
       (py "// tools server.registerTool(" ++ [dquote] ++ py "fetch"
        ++ [dquote] ++ py ", {
  description: " ++ [dquote] ++ py "Fetch a url" ++ [dquote] ++ py ",
  inputSchema: {
    // TODO: Define proper Zod schemas here
  }
}, async (/* TODO: Add destructured parameters */) => { return 1; });"),
     World ∅ [py "Converting tool: fetch"] []).
Proof.
  rewrite convert_tool_to_register_tool_calls.
  - reflexivity.
  - repeat constructor; vm_compute; reflexivity.
  - vm_compute. reflexivity.
Defined.

(** X10: when fix-tools.py is given one argument that names no file, it
    stops with FileNotFoundError at the read: nothing has been printed or
    written, and every file is as it was. *)
Theorem fix_tools_missing_file (argv : list str) (w : world) :
  length argv = 2%nat ->
  files w !! nth 1 argv [] = None ->
  FixTools.main argv w
  = (Raised (FileNotFoundError (nth 1 argv [])),
     World (files w) (stdout w)
           (fileops w ++ [OpenRead (nth 1 argv [])])).
Proof.
  intros Hlen Hnone. unfold FixTools.main. rewrite Hlen.
  cbn [Nat.eqb negb]. unfold mbind, io_bind, IO.bind, read_file.
  by rewrite Hnone.
Qed.

Lemma fix_tools_missing_file_witness :
  FixTools.main [py "fix-tools.py"; py "server.js"] (World ∅ [] [])
  = (Raised (FileNotFoundError (py "server.js")),
     World ∅ [] [OpenRead (py "server.js")]).
Proof.
  rewrite (fix_tools_missing_file
             [py "fix-tools.py"; py "server.js"] (World ∅ [] [])).
  - reflexivity.
  - reflexivity.
  - apply lookup_empty.
Defined.

(** X12: fix-tools.py leaves through [sys.exit] only for a wrong number
    of arguments, and then with status 1: a run that exits had a
    [sys.argv] of a length other than 2, and its status is 1. *)
Theorem fix_tools_exit_status (argv : list str) (w : world) (code : Z) :
  (FixTools.main argv w).1 = Exited code ->
  code = 1%Z /\ length argv <> 2%nat.
Proof.
  intros Hexit.
  destruct (decide (length argv = 2%nat)) as [Hlen|Hlen].
  - destruct (files w !! nth 1 argv []) as [content|] eqn:E.
    + destruct (fix_tools_run argv w content Hlen E)
        as (out & log & _ & Hrun).
      rewrite Hrun in Hexit. discriminate Hexit.
    + unfold FixTools.main in Hexit. rewrite Hlen in Hexit.
      cbn [Nat.eqb negb] in Hexit.
      unfold mbind, io_bind, IO.bind, read_file in Hexit.
      rewrite E in Hexit. discriminate Hexit.
  - unfold FixTools.main in Hexit.
    destruct (length argv =? 2)%nat eqn:E; [by apply Nat.eqb_eq in E|].
    cbn in Hexit. injection Hexit as <-. done.
Qed.

Lemma fix_tools_exit_status_witness :
  (1 = 1)%Z /\ length [py "fix-tools.py"] <> 2%nat.
Proof.
  apply (fix_tools_exit_status [py "fix-tools.py"] (World ∅ [] []) 1%Z).
  reflexivity.
Defined.

(** X13: running fix-inline-schemas.py a second time changes no file: two
    runs in a row leave [server.js] with the content the first run wrote,
    and only add a second confirmation line and a second pair of file
    operations. *)
Theorem fix_inline_schemas_twice (w : world) (content : str) :
  files w !! FixInlineSchemas.server_js = Some content ->
  (FixInlineSchemas.main ≫= fun _ => FixInlineSchemas.main) w
  = (Done tt,
     World (<[FixInlineSchemas.server_js :=
                FixInlineSchemas.fix_content content]> (files w))
           (stdout w ++ [FixInlineSchemas.confirmation;
                         FixInlineSchemas.confirmation])
           (fileops w ++ [OpenRead FixInlineSchemas.server_js;
                          OpenWrite FixInlineSchemas.server_js;
                          OpenRead FixInlineSchemas.server_js;
                          OpenWrite FixInlineSchemas.server_js])).
Proof.
  intros Hserver.
  erewrite io_bind_run by exact (fix_inline_schemas_run w content Hserver).
  erewrite fix_inline_schemas_run by (simpl; apply lookup_insert_eq).
  simpl. rewrite insert_insert_eq, <- !app_assoc. simpl.
  assert (FixInlineSchemas.fix_content (FixInlineSchemas.fix_content content)
          = FixInlineSchemas.fix_content content) as ->; [|done].
  apply replace_all_fixed. intros q n Hin. split.
  - by apply (rewrites_nonempty q n).
  - apply not_occurs_contains. by apply (fix_content_clear content q n).
Qed.

Lemma fix_inline_schemas_twice_witness :
  (FixInlineSchemas.main ≫= fun _ => FixInlineSchemas.main)
    (World {[ py "server.js" := py "inputSchema: SearchWebSchema" ]} [] [])
  = (Done tt,
     World (<[py "server.js" :=
                FixInlineSchemas.fix_content
                  (py "inputSchema: SearchWebSchema")]>
              {[ py "server.js" := py "inputSchema: SearchWebSchema" ]})
           [FixInlineSchemas.confirmation; FixInlineSchemas.confirmation]
           [OpenRead (py "server.js"); OpenWrite (py "server.js");
            OpenRead (py "server.js"); OpenWrite (py "server.js")]).
Proof.
  rewrite (fix_inline_schemas_twice
             (World {[ py "server.js" := py "inputSchema: SearchWebSchema" ]}
                    [] [])
             (py "inputSchema: SearchWebSchema")).
  - reflexivity.
  - apply lookup_singleton_eq.
Defined.

(** C9, as it is worded, does not hold of every matching substring: a
    [server.tool] call that begins inside the schema of an earlier match
    is part of that match, and no [server.registerTool] call with its name
    and description comes out. *)
Lemma convert_inner_call_not_rewritten :
  ~ (forall (content a b : str) (t : FixTools.tool_call) (w : world),
       FixTools.well_formed_call t = true ->
       content = a ++ FixTools.call_text t ++ b ->
       exists out log,
         FixTools.convert_tool_to_register_tool content w
         = (Done out, print_all log w)
         /\ occurs
              (py "server.registerTool(" ++ [dquote] ++ FixTools.call_name t ++ [dquote]
               ++ py ", {
  description: " ++ [dquote] ++ FixTools.call_description t ++ [dquote] ++ py ",
  inputSchema: {
    // TODO: Define proper Zod schemas here
  }
}, async (/* TODO: Add destructured parameters */) => {")
              out).
Proof.
  intros Hall.
  set (inner := {| FixTools.call_name := py "c";
                   FixTools.call_description := py "d";
                   FixTools.call_schema := py "e";
                   FixTools.call_params := [];
                   FixTools.sp1 := []; FixTools.sp2 := [];
                   FixTools.sp3 := []; FixTools.sp4 := [];
                   FixTools.sp5 := []; FixTools.sp6 := [];
                   FixTools.sp7 := [] |}).
  set (before := py "server.tool(" ++ [dquote] ++ py "a" ++ [dquote]
                 ++ py "," ++ [dquote] ++ py "b" ++ [dquote] ++ py ",{ ").
  destruct (Hall (before ++ FixTools.call_text inner ++ []) before [] inner
                 (World ∅ [] []) eq_refl eq_refl)
    as (out & log & Hrun & Hocc).
  apply contains_iff in Hocc.
  vm_compute in Hrun. injection Hrun as <- _.
  vm_compute in Hocc. discriminate Hocc.
Qed.

(** C9, amended: for every input text, [convert_tool_to_register_tool]
    ends normally and returns the text in which, going from the left, each
    match of the pattern that does not begin inside an earlier match has
    become the [server.registerTool] call written out below, with the
    matched tool name and description unchanged and the two fixed TODO
    texts in place of the schema and the parameters, whatever these were;
    every character outside these matches is kept, so a text without any
    call is returned exactly as given. *)
Theorem convert_tool_to_register_tool_spec (content : str) (w : world) :
  (exists out log,
     FixTools.convert_tool_to_register_tool content w
     = (Done out, print_all log w)
     /\ FixTools.converts content out log
     /\ (~ FixTools.has_call content -> out = content))
  /\ (forall name description : str,
        FixTools.register_call name description
          FixTools.todo_schema FixTools.todo_params
        = py "server.registerTool(" ++ [dquote] ++ name ++ [dquote]
          ++ py ", {
  description: " ++ [dquote] ++ description ++ [dquote] ++ py ",
  inputSchema: {
    // TODO: Define proper Zod schemas here
  }
}, async (/* TODO: Add destructured parameters */) => {").
Proof.
  split; [|reflexivity].
  destruct (sub_from_converts (length content) content w)
    as (out & log & Hconv & Hrun); [done|].
  exists out, log. repeat split; try done.
  intros Hno. by destruct (converts_no_call _ _ _ Hconv Hno).
Qed.

Lemma convert_tool_to_register_tool_spec_witness :
  (exists out log,
     FixTools.convert_tool_to_register_tool
       (py "server.resource(x)") (World ∅ [] [])
     = (Done out, print_all log (World ∅ [] []))
     /\ out = py "server.resource(x)")
  /\ FixTools.convert_tool_to_register_tool
       (FixTools.with_calls FixTools.call_text
          [ (py "x; ",
             {| FixTools.call_name := py "fetch";
                FixTools.call_description := py "Fetch a url";
                FixTools.call_schema := py " url: z.string() ";
                FixTools.call_params := py "{ url }";
                FixTools.sp1 := []; FixTools.sp2 := py " ";
                FixTools.sp3 := py " "; FixTools.sp4 := py " ";
                FixTools.sp5 := py " "; FixTools.sp6 := py " ";
                FixTools.sp7 := py " " |}) ]
          (py " body });"))
       (World ∅ [] [])
     = (Done
          (py "x; server.registerTool(" ++ [dquote] ++ py "fetch"
           ++ [dquote] ++ py ", {
  description: " ++ [dquote] ++ py "Fetch a url" ++ [dquote] ++ py ",
  inputSchema: {
    // TODO: Define proper Zod schemas here
  }
}, async (/* TODO: Add destructured parameters */) => { body });"),
        World ∅ [py "Converting tool: fetch"] []).
Proof.
  split.
  - destruct (convert_tool_to_register_tool_spec
                (py "server.resource(x)") (World ∅ [] []))
      as [(out & log & Hrun & _ & Hsame) _].
    exists out, log. split; [exact Hrun|].
    apply Hsame. intros Hcall. apply has_call_found in Hcall.
    vm_compute in Hcall. discriminate Hcall.
  - set (t := {| FixTools.call_name := py "fetch";
                 FixTools.call_description := py "Fetch a url";
                 FixTools.call_schema := py " url: z.string() ";
                 FixTools.call_params := py "{ url }";
                 FixTools.sp1 := []; FixTools.sp2 := py " ";
                 FixTools.sp3 := py " "; FixTools.sp4 := py " ";
                 FixTools.sp5 := py " "; FixTools.sp6 := py " ";
                 FixTools.sp7 := py " " |}).
    destruct (convert_tool_to_register_tool_spec
                (FixTools.with_calls FixTools.call_text [(py "x; ", t)]
                                     (py " body });"))
                (World ∅ [] []))
      as [(out & log & Hrun & Hconv & _) Hpin].
    assert (Hexp : FixTools.converts
                     (FixTools.with_calls FixTools.call_text
                        [(py "x; ", t)] (py " body });"))
                     (FixTools.with_calls FixTools.converted_call
                        [(py "x; ", t)] (py " body });"))
                     [FixTools.report_line t]).
    { apply (converts_calls [(py "x; ", t)] (py " body });")).
      - repeat constructor; vm_compute; reflexivity.
      - vm_compute. reflexivity. }
    destruct (converts_functional _ _ _ Hconv _ _ Hexp) as [-> ->].
    rewrite Hrun. unfold FixTools.with_calls, FixTools.converted_call.
    cbn [List.map render fold_right]. rewrite Hpin. reflexivity.
Defined.
